(** * packageurl-go: a shallow embedding of the purl codec

    The development models [packageurl.go] (qualifiers as [url.Values]) and
    the slice-based variant of the same package ([Qualifiers []Qualifier]),
    together with the parts of Go's [strings], [path] and [net/url] packages
    that they call.  Go strings are byte strings: a byte is an [ascii]
    (eight bits), a Go string a [string]. *)

From Stdlib Require Import Ascii String ZArith.
From stdpp Require Import base list gmap strings sorting.

Local Open Scope bool_scope.

(* ------------------------------------------------------------------ *)
(** ** Errors and panics *)

(** Go [error] values produced along the parse path.  [Wrap msg e] is
    [fmt.Errorf("msg: %w", e)]. *)
Inductive error :=
  (* net/url *)
  | EscapeError (s : string)
  | InvalidHostError (s : string)
  | MissingProtocolScheme
  | InvalidControlCharacter
  | FirstSegmentColon
  | InvalidPort (s : string)
  | MissingBracket
  | InvalidUserinfo
  | InvalidSemicolon
  (* packageurl *)
  | SchemeNotPkg (scheme : string)
  | MissingTypeOrName
  | InvalidQualifierKey (key : string)
  | MissingName
  | CustomRule (msg : string)
  (* the specification's normalize *)
  | DuplicateQualifierKey (key : string)
  | InvalidSubpathSegment (subpath : string)
  | Wrap (msg : string) (e : error).

(** A Go [(T, error)] result of a function whose error return comes with
    the zero value of [T]. *)
Inductive result (A : Type) := Ok (a : A) | Err (e : error).
Arguments Ok {A} a.
Arguments Err {A} e.

(** A Go computation that either returns or panics. *)
Inductive go (A : Type) := Ret (a : A) | Panic (msg : string).
Arguments Ret {A} a.
Arguments Panic {A} msg.

Definition go_bind {A B} (m : go A) (k : A -> go B) : go B :=
  match m with Ret a => k a | Panic msg => Panic msg end.
Notation "'let!' x := m 'in' k" := (go_bind m (fun x => k))
  (at level 200, x name, m at level 100, k at level 200).

(* ------------------------------------------------------------------ *)
(** ** Go's [strings] package, on byte strings *)

Module GoStrings.

Definition code (c : ascii) : N := N_of_ascii c.

Definition slash : ascii := "/".
Definition amp : ascii := "&".
Definition at_sign : ascii := "@".

(** [strings.Cut(s, sep)] for a one-byte separator. *)
Fixpoint Cut (s : string) (sep : ascii) : string * string * bool :=
  match s with
  | EmptyString => ("", "", false)
  | String c s' =>
      if ascii_dec c sep then ("", s', true)
      else let '(b, a, f) := Cut s' sep in (String c b, a, f)
  end.

(** [strings.LastIndex(s, sep)] for a one-byte separator; [None] is -1. *)
Fixpoint LastIndex (s : string) (sep : ascii) : option nat :=
  match s with
  | EmptyString => None
  | String c s' =>
      match LastIndex s' sep with
      | Some i => Some (S i)
      | None => if ascii_dec c sep then Some 0 else None
      end
  end.

(** [strings.Index(s, substr)]. *)
Fixpoint Index (s sub : string) : option nat :=
  if String.prefix sub s then Some 0 else
  match s with
  | EmptyString => None
  | String _ s' => option_map S (Index s' sub)
  end.

(** [strings.Contains(s, substr)]. *)
Definition Contains (s sub : string) : bool :=
  match Index s sub with Some _ => true | None => false end.

Definition HasPrefix (s pre : string) : bool := String.prefix pre s.

(** [s[:n]] and [s[n:]] for [n <= len(s)]. *)
Definition take (n : nat) (s : string) : string := String.substring 0 n s.
Definition drop (n : nat) (s : string) : string :=
  String.substring n (String.length s - n) s.

Definition HasSuffix (s suf : string) : bool :=
  (String.length suf <=? String.length s)%nat &&
  String.eqb (drop (String.length s - String.length suf) s) suf.

Fixpoint Count (s : string) (c : ascii) : nat :=
  match s with
  | EmptyString => 0
  | String d s' => (if ascii_dec c d then 1 else 0) + Count s' c
  end.

Fixpoint ContainsByte (s : string) (c : ascii) : bool :=
  match s with
  | EmptyString => false
  | String d s' => if ascii_dec c d then true else ContainsByte s' c
  end.

(** *** [unicode/utf8], [unicode.ToLower] and [strings.ToLower]

    A rune (a Go [int32]) is an [N]: every rune below is non-negative. *)

Definition RuneSelf : N := 0x80.
Definition RuneError : N := 0xFFFD.
Definition MaxRune : N := 0x10FFFF.

(** [utf8.DecodeRuneInString(s)]: the first rune of [s] and its width in
    bytes; [(RuneError, 1)] for an invalid encoding, [(RuneError, 0)] for
    the empty string.  The first byte selects the sequence length and the
    accepted range of the second byte (the [first] and [acceptRanges]
    tables); later bytes are in 0x80..0xBF. *)
Definition DecodeRuneInString (s : string) : N * nat :=
  match s with
  | EmptyString => (RuneError, 0%nat)
  | String c0 s1 =>
      let s0 := code c0 in
      if (s0 <? 0x80)%N then (s0, 1%nat)
      else if (s0 <? 0xC2)%N || (0xF5 <=? s0)%N then (RuneError, 1%nat)
      else
        let sz := if (s0 <? 0xE0)%N then 2%nat else if (s0 <? 0xF0)%N then 3%nat else 4%nat in
        let '(lo, hi) :=
          if (s0 =? 0xE0)%N then (0xA0, 0xBF)%N
          else if (s0 =? 0xED)%N then (0x80, 0x9F)%N
          else if (s0 =? 0xF0)%N then (0x90, 0xBF)%N
          else if (s0 =? 0xF4)%N then (0x80, 0x8F)%N
          else (0x80, 0xBF)%N in
        if (String.length s <? sz)%nat then (RuneError, 1%nat) else
        match s1 with
        | EmptyString => (RuneError, 1%nat)
        | String c1 s2 =>
            let b1 := code c1 in
            if (b1 <? lo)%N || (hi <? b1)%N then (RuneError, 1%nat)
            else if (sz <=? 2)%nat then
              (N.lor (N.shiftl (N.land s0 0x1F) 6) (N.land b1 0x3F), 2%nat)
            else
              match s2 with
              | EmptyString => (RuneError, 1%nat)
              | String c2 s3 =>
                  let b2 := code c2 in
                  if (b2 <? 0x80)%N || (0xBF <? b2)%N then (RuneError, 1%nat)
                  else if (sz <=? 3)%nat then
                    (N.lor (N.lor (N.shiftl (N.land s0 0x0F) 12) (N.shiftl (N.land b1 0x3F) 6))
                           (N.land b2 0x3F), 3%nat)
                  else
                    match s3 with
                    | EmptyString => (RuneError, 1%nat)
                    | String c3 _ =>
                        let b3 := code c3 in
                        if (b3 <? 0x80)%N || (0xBF <? b3)%N then (RuneError, 1%nat)
                        else (N.lor (N.lor (N.lor (N.shiftl (N.land s0 0x07) 18)
                                                  (N.shiftl (N.land b1 0x3F) 12))
                                           (N.shiftl (N.land b2 0x3F) 6))
                                    (N.land b3 0x3F), 4%nat)
                    end
              end
        end
  end.

(** [utf8.RuneLen(r)]. *)
Definition RuneLen (r : N) : Z :=
  if (r <? 0x80)%N then 1%Z
  else if (r <? 0x800)%N then 2%Z
  else if (0xD800 <=? r)%N && (r <=? 0xDFFF)%N then (-1)%Z
  else if (r <? 0x10000)%N then 3%Z
  else if (r <=? MaxRune)%N then 4%Z
  else (-1)%Z.

(** [utf8.EncodeRune] ([Builder.WriteRune]): an invalid rune (a surrogate
    or above [MaxRune]) is written as [RuneError]. *)
Definition EncodeRune (r : N) : string :=
  if (r <? 0x80)%N then String (ascii_of_N r) EmptyString
  else if (r <? 0x800)%N then
    String (ascii_of_N (N.lor 0xC0 (N.shiftr r 6)))
      (String (ascii_of_N (N.lor 0x80 (N.land r 0x3F))) EmptyString)
  else
    let r := if (MaxRune <? r)%N || ((0xD800 <=? r)%N && (r <=? 0xDFFF)%N)
             then RuneError else r in
    if (r <? 0x10000)%N then
      String (ascii_of_N (N.lor 0xE0 (N.shiftr r 12)))
        (String (ascii_of_N (N.lor 0x80 (N.land (N.shiftr r 6) 0x3F)))
          (String (ascii_of_N (N.lor 0x80 (N.land r 0x3F))) EmptyString))
    else
      String (ascii_of_N (N.lor 0xF0 (N.shiftr r 18)))
        (String (ascii_of_N (N.lor 0x80 (N.land (N.shiftr r 12) 0x3F)))
          (String (ascii_of_N (N.lor 0x80 (N.land (N.shiftr r 6) 0x3F)))
            (String (ascii_of_N (N.lor 0x80 (N.land r 0x3F))) EmptyString))).

(** The lower-case column of [unicode.CaseRanges]: a range [Lo..Hi] maps
    [r] to [r + d] ([Delta d]), or, for an [UpperLower] range of alternating
    upper- and lower-case letters, to [Lo + ((r - Lo) &^ 1 | 1)].  Ranges
    whose lower-case delta is 0 are left out (they map [r] to itself, as a
    rune outside every range does).  The table is generated from the simple
    lowercase mappings of the Unicode Character Database (UnicodeData.txt,
    version 14.0.0; Go 1.21 ships version 15.0.0, whose new characters have
    no lowercase mapping). *)
Inductive case_delta := Delta (d : Z) | UpperLower.

Definition LowerRanges : list (N * N * case_delta) := [
   (0xC0, 0xD6, Delta 32); (0xD8, 0xDE, Delta 32); (0x100, 0x12F, UpperLower);
   (0x130, 0x130, Delta (-199)); (0x132, 0x137, UpperLower); (0x139, 0x148, UpperLower);
   (0x14A, 0x177, UpperLower); (0x178, 0x178, Delta (-121)); (0x179, 0x17E, UpperLower);
   (0x181, 0x181, Delta 210); (0x182, 0x185, UpperLower); (0x186, 0x186, Delta 206);
   (0x187, 0x187, Delta 1); (0x189, 0x18A, Delta 205); (0x18B, 0x18B, Delta 1);
   (0x18E, 0x18E, Delta 79); (0x18F, 0x18F, Delta 202); (0x190, 0x190, Delta 203);
   (0x191, 0x191, Delta 1); (0x193, 0x193, Delta 205); (0x194, 0x194, Delta 207);
   (0x196, 0x196, Delta 211); (0x197, 0x197, Delta 209); (0x198, 0x198, Delta 1);
   (0x19C, 0x19C, Delta 211); (0x19D, 0x19D, Delta 213); (0x19F, 0x19F, Delta 214);
   (0x1A0, 0x1A5, UpperLower); (0x1A6, 0x1A6, Delta 218); (0x1A7, 0x1A7, Delta 1);
   (0x1A9, 0x1A9, Delta 218); (0x1AC, 0x1AC, Delta 1); (0x1AE, 0x1AE, Delta 218);
   (0x1AF, 0x1AF, Delta 1); (0x1B1, 0x1B2, Delta 217); (0x1B3, 0x1B6, UpperLower);
   (0x1B7, 0x1B7, Delta 219); (0x1B8, 0x1B8, Delta 1); (0x1BC, 0x1BC, Delta 1);
   (0x1C4, 0x1C4, Delta 2); (0x1C5, 0x1C5, Delta 1); (0x1C7, 0x1C7, Delta 2);
   (0x1C8, 0x1C8, Delta 1); (0x1CA, 0x1CA, Delta 2); (0x1CB, 0x1DC, UpperLower);
   (0x1DE, 0x1EF, UpperLower); (0x1F1, 0x1F1, Delta 2); (0x1F2, 0x1F5, UpperLower);
   (0x1F6, 0x1F6, Delta (-97)); (0x1F7, 0x1F7, Delta (-56)); (0x1F8, 0x21F, UpperLower);
   (0x220, 0x220, Delta (-130)); (0x222, 0x233, UpperLower); (0x23A, 0x23A, Delta 10795);
   (0x23B, 0x23B, Delta 1); (0x23D, 0x23D, Delta (-163)); (0x23E, 0x23E, Delta 10792);
   (0x241, 0x241, Delta 1); (0x243, 0x243, Delta (-195)); (0x244, 0x244, Delta 69);
   (0x245, 0x245, Delta 71); (0x246, 0x24F, UpperLower); (0x370, 0x373, UpperLower);
   (0x376, 0x376, Delta 1); (0x37F, 0x37F, Delta 116); (0x386, 0x386, Delta 38);
   (0x388, 0x38A, Delta 37); (0x38C, 0x38C, Delta 64); (0x38E, 0x38F, Delta 63);
   (0x391, 0x3A1, Delta 32); (0x3A3, 0x3AB, Delta 32); (0x3CF, 0x3CF, Delta 8);
   (0x3D8, 0x3EF, UpperLower); (0x3F4, 0x3F4, Delta (-60)); (0x3F7, 0x3F7, Delta 1);
   (0x3F9, 0x3F9, Delta (-7)); (0x3FA, 0x3FA, Delta 1); (0x3FD, 0x3FF, Delta (-130));
   (0x400, 0x40F, Delta 80); (0x410, 0x42F, Delta 32); (0x460, 0x481, UpperLower);
   (0x48A, 0x4BF, UpperLower); (0x4C0, 0x4C0, Delta 15); (0x4C1, 0x4CE, UpperLower);
   (0x4D0, 0x52F, UpperLower); (0x531, 0x556, Delta 48); (0x10A0, 0x10C5, Delta 7264);
   (0x10C7, 0x10C7, Delta 7264); (0x10CD, 0x10CD, Delta 7264); (0x13A0, 0x13EF, Delta 38864);
   (0x13F0, 0x13F5, Delta 8); (0x1C90, 0x1CBA, Delta (-3008)); (0x1CBD, 0x1CBF, Delta (-3008));
   (0x1E00, 0x1E95, UpperLower); (0x1E9E, 0x1E9E, Delta (-7615)); (0x1EA0, 0x1EFF, UpperLower);
   (0x1F08, 0x1F0F, Delta (-8)); (0x1F18, 0x1F1D, Delta (-8)); (0x1F28, 0x1F2F, Delta (-8));
   (0x1F38, 0x1F3F, Delta (-8)); (0x1F48, 0x1F4D, Delta (-8)); (0x1F59, 0x1F59, Delta (-8));
   (0x1F5B, 0x1F5B, Delta (-8)); (0x1F5D, 0x1F5D, Delta (-8)); (0x1F5F, 0x1F5F, Delta (-8));
   (0x1F68, 0x1F6F, Delta (-8)); (0x1F88, 0x1F8F, Delta (-8)); (0x1F98, 0x1F9F, Delta (-8));
   (0x1FA8, 0x1FAF, Delta (-8)); (0x1FB8, 0x1FB9, Delta (-8)); (0x1FBA, 0x1FBB, Delta (-74));
   (0x1FBC, 0x1FBC, Delta (-9)); (0x1FC8, 0x1FCB, Delta (-86)); (0x1FCC, 0x1FCC, Delta (-9));
   (0x1FD8, 0x1FD9, Delta (-8)); (0x1FDA, 0x1FDB, Delta (-100)); (0x1FE8, 0x1FE9, Delta (-8));
   (0x1FEA, 0x1FEB, Delta (-112)); (0x1FEC, 0x1FEC, Delta (-7)); (0x1FF8, 0x1FF9, Delta (-128));
   (0x1FFA, 0x1FFB, Delta (-126)); (0x1FFC, 0x1FFC, Delta (-9)); (0x2126, 0x2126, Delta (-7517));
   (0x212A, 0x212A, Delta (-8383)); (0x212B, 0x212B, Delta (-8262)); (0x2132, 0x2132, Delta 28);
   (0x2160, 0x216F, Delta 16); (0x2183, 0x2183, Delta 1); (0x24B6, 0x24CF, Delta 26);
   (0x2C00, 0x2C2F, Delta 48); (0x2C60, 0x2C60, Delta 1); (0x2C62, 0x2C62, Delta (-10743));
   (0x2C63, 0x2C63, Delta (-3814)); (0x2C64, 0x2C64, Delta (-10727)); (0x2C67, 0x2C6C, UpperLower);
   (0x2C6D, 0x2C6D, Delta (-10780)); (0x2C6E, 0x2C6E, Delta (-10749)); (0x2C6F, 0x2C6F, Delta (-10783));
   (0x2C70, 0x2C70, Delta (-10782)); (0x2C72, 0x2C72, Delta 1); (0x2C75, 0x2C75, Delta 1);
   (0x2C7E, 0x2C7F, Delta (-10815)); (0x2C80, 0x2CE3, UpperLower); (0x2CEB, 0x2CEE, UpperLower);
   (0x2CF2, 0x2CF2, Delta 1); (0xA640, 0xA66D, UpperLower); (0xA680, 0xA69B, UpperLower);
   (0xA722, 0xA72F, UpperLower); (0xA732, 0xA76F, UpperLower); (0xA779, 0xA77C, UpperLower);
   (0xA77D, 0xA77D, Delta (-35332)); (0xA77E, 0xA787, UpperLower); (0xA78B, 0xA78B, Delta 1);
   (0xA78D, 0xA78D, Delta (-42280)); (0xA790, 0xA793, UpperLower); (0xA796, 0xA7A9, UpperLower);
   (0xA7AA, 0xA7AA, Delta (-42308)); (0xA7AB, 0xA7AB, Delta (-42319)); (0xA7AC, 0xA7AC, Delta (-42315));
   (0xA7AD, 0xA7AD, Delta (-42305)); (0xA7AE, 0xA7AE, Delta (-42308)); (0xA7B0, 0xA7B0, Delta (-42258));
   (0xA7B1, 0xA7B1, Delta (-42282)); (0xA7B2, 0xA7B2, Delta (-42261)); (0xA7B3, 0xA7B3, Delta 928);
   (0xA7B4, 0xA7C3, UpperLower); (0xA7C4, 0xA7C4, Delta (-48)); (0xA7C5, 0xA7C5, Delta (-42307));
   (0xA7C6, 0xA7C6, Delta (-35384)); (0xA7C7, 0xA7CA, UpperLower); (0xA7D0, 0xA7D0, Delta 1);
   (0xA7D6, 0xA7D9, UpperLower); (0xA7F5, 0xA7F5, Delta 1); (0xFF21, 0xFF3A, Delta 32);
   (0x10400, 0x10427, Delta 40); (0x104B0, 0x104D3, Delta 40); (0x10570, 0x1057A, Delta 39);
   (0x1057C, 0x1058A, Delta 39); (0x1058C, 0x10592, Delta 39); (0x10594, 0x10595, Delta 39);
   (0x10C80, 0x10CB2, Delta 64); (0x118A0, 0x118BF, Delta 32); (0x16E40, 0x16E5F, Delta 32);
   (0x1E900, 0x1E921, Delta 34)
  ]%N.

(** The lookup of [to(LowerCase, r, CaseRanges)]: Go searches the sorted,
    disjoint ranges by bisection, the model linearly. *)
Fixpoint to_lower (ranges : list (N * N * case_delta)) (r : N) : N :=
  match ranges with
  | [] => r
  | (lo, hi, d) :: ranges' =>
      if (lo <=? r)%N && (r <=? hi)%N then
        match d with
        | Delta z => Z.to_N (Z.of_N r + z)
        | UpperLower => (lo + N.lor (r - lo) 1)%N
        end
      else to_lower ranges' r
  end.

(** [unicode.ToLower(r)]. *)
Definition unicode_ToLower (r : N) : N :=
  if (r <=? 0x7F)%N then
    (if (65 <=? r)%N && (r <=? 90)%N then r + 32 else r)%N
  else to_lower LowerRanges r.

(** The second loop of [strings.Map]: [for _, c := range s] decodes [s]
    rune by rune (an invalid byte is [RuneError] of width 1) and writes
    [mapping(c)] ([WriteByte] below [RuneSelf], [WriteRune] above; the
    mapping never returns a negative rune here).  Every step consumes at
    least one byte, so [String.length s] steps suffice. *)
Fixpoint Map_rest (fuel : nat) (mapping : N -> N) (s : string) : string :=
  match fuel with
  | O => EmptyString
  | S fuel' =>
      match s with
      | EmptyString => EmptyString
      | String _ _ =>
          let '(c, w) := DecodeRuneInString s in
          let r := mapping c in
          (if (r <? RuneSelf)%N then String (ascii_of_N r) EmptyString else EncodeRune r) +:+
          Map_rest fuel' mapping (drop w s)
      end
  end.

(** The first loop of [strings.Map] from byte index [i] of [s]: [None] when
    no rune from [i] on changes (Go then returns [s] itself), otherwise the
    result: [s[:i]], the new rune, and the second loop on the rest. *)
Fixpoint Map_first (fuel : nat) (mapping : N -> N) (s : string) (i : nat) : option string :=
  match fuel with
  | O => None
  | S fuel' =>
      if (String.length s <=? i)%nat then None else
      let '(c, w) := DecodeRuneInString (drop i s) in
      let r := mapping c in
      if (r =? c)%N && negb (c =? RuneError)%N then Map_first fuel' mapping s (i + w) else
      let '(c, width, skip) :=
        if (c =? RuneError)%N then
          let '(c, width) := DecodeRuneInString (drop i s) in
          (c, width, negb (width =? 1)%nat && (r =? c)%N)
        else (c, Z.to_nat (RuneLen c), false) in
      if skip then Map_first fuel' mapping s (i + w) else
      let s' := drop (i + width) s in
      Some (take i s +:+ EncodeRune r +:+ Map_rest (String.length s') mapping s')
  end.

(** [strings.Map(mapping, s)]. *)
Definition Map (mapping : N -> N) (s : string) : string :=
  match Map_first (String.length s) mapping s 0 with
  | None => s
  | Some t => t
  end.

(** 'A'..'Z' become 'a'..'z'; every other byte is kept. *)
Definition lower (c : ascii) : ascii :=
  if ((65 <=? code c) && (code c <=? 90))%N
  then ascii_of_N (code c + 32) else c.

(** The [isASCII] and [hasUpper] scan of [strings.ToLower]. *)
Fixpoint isASCII (s : string) : bool :=
  match s with
  | EmptyString => true
  | String c s' => (code c <? RuneSelf)%N && isASCII s'
  end.

Fixpoint hasUpper (s : string) : bool :=
  match s with
  | EmptyString => false
  | String c s' => ((65 <=? code c) && (code c <=? 90))%N || hasUpper s'
  end.

(** The ASCII loop of [strings.ToLower]: every byte through [lower]. *)
Fixpoint ToLowerASCII (s : string) : string :=
  match s with
  | EmptyString => EmptyString
  | String c s' => String (lower c) (ToLowerASCII s')
  end.

(** [strings.ToLower(s)] (Go 1.21). *)
Definition ToLower (s : string) : string :=
  if isASCII s then
    if negb (hasUpper s) then s else ToLowerASCII s
  else Map unicode_ToLower s.

(** [strings.ReplaceAll(s, old, new)] for one-byte [old] and [new]. *)
Fixpoint ReplaceAll (s : string) (old new : ascii) : string :=
  match s with
  | EmptyString => EmptyString
  | String c s' =>
      String (if ascii_dec c old then new else c) (ReplaceAll s' old new)
  end.

(** [strings.TrimLeft(s, "c")] and [strings.TrimRight(s, "c")]. *)
Fixpoint TrimLeft (s : string) (c : ascii) : string :=
  match s with
  | EmptyString => EmptyString
  | String d s' => if ascii_dec c d then TrimLeft s' c else s
  end.

Fixpoint TrimRight (s : string) (c : ascii) : string :=
  match s with
  | EmptyString => EmptyString
  | String d s' =>
      match TrimRight s' c with
      | EmptyString => if ascii_dec c d then EmptyString else String d EmptyString
      | t => String d t
      end
  end.

(** [strings.Trim(s, "c")]. *)
Definition Trim (s : string) (c : ascii) : string := TrimRight (TrimLeft s c) c.

(** [strings.TrimPrefix(s, pre)]. *)
Definition TrimPrefix (s pre : string) : string :=
  if HasPrefix s pre then drop (String.length pre) s else s.

(** [strings.Join(elems, sep)]. *)
Fixpoint Join (elems : list string) (sep : string) : string :=
  match elems with
  | [] => ""
  | [e] => e
  | e :: es => e +:+ sep +:+ Join es sep
  end.

End GoStrings.

Import GoStrings.

(* ------------------------------------------------------------------ *)
(** ** Go's [net/url] percent codec *)

Module GoURL.

Inductive encoding :=
  | encodePath | encodePathSegment | encodeHost | encodeZone
  | encodeUserPassword | encodeQueryComponent | encodeFragment.

Definition encoding_eqb (a b : encoding) : bool :=
  match a, b with
  | encodePath, encodePath | encodePathSegment, encodePathSegment
  | encodeHost, encodeHost | encodeZone, encodeZone
  | encodeUserPassword, encodeUserPassword
  | encodeQueryComponent, encodeQueryComponent
  | encodeFragment, encodeFragment => true
  | _, _ => false
  end.

Definition dquote : ascii := ascii_of_nat 34.

Definition is_lower_letter (c : ascii) : bool := ((97 <=? code c) && (code c <=? 122))%N.
Definition is_upper_letter (c : ascii) : bool := ((65 <=? code c) && (code c <=? 90))%N.
Definition is_digit (c : ascii) : bool := ((48 <=? code c) && (code c <=? 57))%N.
Definition is_letter (c : ascii) : bool := is_lower_letter c || is_upper_letter c.

(** [c] is one of the bytes of [set]. *)
Definition one_of (c : ascii) (set : string) : bool := ContainsByte set c.

(** [shouldEscape(c, mode)]. *)
Definition shouldEscape (c : ascii) (mode : encoding) : bool :=
  if is_letter c || is_digit c then false
  else if (encoding_eqb mode encodeHost || encoding_eqb mode encodeZone) &&
          (one_of c "!$&'()*+,;=:[]<>" || Ascii.eqb c dquote)
  then false
  else if one_of c "-_.~" then false
  else if one_of c "$&+,/:;=?@" then
    match mode with
    | encodePath => one_of c "?"
    | encodePathSegment => one_of c "/;,?"
    | encodeUserPassword => one_of c "@/?:"
    | encodeQueryComponent => true
    | encodeFragment => false
    | encodeHost | encodeZone => true
    end
  else if encoding_eqb mode encodeFragment && one_of c "!()*" then false
  else true.

Definition upperhex (n : N) : ascii :=
  if (n <? 10)%N then ascii_of_N (48 + n) else ascii_of_N (55 + n).

Definition ishex (c : ascii) : bool :=
  is_digit c || ((97 <=? code c) && (code c <=? 102))%N
             || ((65 <=? code c) && (code c <=? 70))%N.

Definition unhex (c : ascii) : N :=
  if is_digit c then code c - 48
  else if ((97 <=? code c) && (code c <=? 102))%N then code c - 87
  else if ((65 <=? code c) && (code c <=? 70))%N then code c - 55
  else 0.

(** [escape(s, mode)]. *)
Fixpoint escape (s : string) (mode : encoding) : string :=
  match s with
  | EmptyString => EmptyString
  | String c s' =>
      if Ascii.eqb c " " && encoding_eqb mode encodeQueryComponent
      then String "+" (escape s' mode)
      else if shouldEscape c mode
      then String "%" (String (upperhex (N.shiftr (code c) 4))
                        (String (upperhex (N.land (code c) 15)) (escape s' mode)))
      else String c (escape s' mode)
  end.

(** The first loop of [unescape(s, mode)]: checks that every [%] is
    followed by two hex digits, plus the host and zone restrictions. *)
Fixpoint unescape_check (s : string) (mode : encoding) : option error :=
  match s with
  | EmptyString => None
  | String "%" t =>
      match t with
      | String h1 (String h2 rest) =>
          if ishex h1 && ishex h2 then
            let esc := String "%" (String h1 (String h2 EmptyString)) in
            if encoding_eqb mode encodeHost && (unhex h1 <? 8)%N &&
               negb (String.eqb esc "%25")
            then Some (EscapeError esc)
            else if encoding_eqb mode encodeZone &&
                    negb (String.eqb esc "%25") &&
                    negb (N.eqb (unhex h1 * 16 + unhex h2) 32) &&
                    shouldEscape (ascii_of_N (unhex h1 * 16 + unhex h2)) encodeHost
            then Some (EscapeError esc)
            else unescape_check rest mode
          else Some (EscapeError (take 3 s))
      | _ => Some (EscapeError (take 3 s))
      end
  | String "+" t => unescape_check t mode
  | String c t =>
      if (encoding_eqb mode encodeHost || encoding_eqb mode encodeZone) &&
         (code c <? 128)%N && shouldEscape c mode
      then Some (InvalidHostError (String c EmptyString))
      else unescape_check t mode
  end.

(** The second loop of [unescape]: decoding of a checked string. *)
Fixpoint unescape_decode (s : string) (mode : encoding) : string :=
  match s with
  | EmptyString => EmptyString
  | String "%" (String h1 (String h2 rest)) =>
      String (ascii_of_N (unhex h1 * 16 + unhex h2)) (unescape_decode rest mode)
  | String "+" t =>
      String (if encoding_eqb mode encodeQueryComponent then " " else "+")
             (unescape_decode t mode)
  | String c t => String c (unescape_decode t mode)
  end.

(** [unescape(s, mode)]. *)
Definition unescape (s : string) (mode : encoding) : result string :=
  match unescape_check s mode with
  | Some e => Err e
  | None => Ok (unescape_decode s mode)
  end.

Definition PathEscape (s : string) : string := escape s encodePathSegment.
Definition QueryEscape (s : string) : string := escape s encodeQueryComponent.
Definition PathUnescape (s : string) : result string := unescape s encodePathSegment.
Definition QueryUnescape (s : string) : result string := unescape s encodeQueryComponent.

(** [validEncoded(s, mode)]. *)
Fixpoint validEncoded (s : string) (mode : encoding) : bool :=
  match s with
  | EmptyString => true
  | String c s' =>
      if one_of c "!$&'()*+,;=:@[]%" then validEncoded s' mode
      else if shouldEscape c mode then false
      else validEncoded s' mode
  end.


(** [url.URL].  The [User] field is not represented: [ToString] never sets
    it and [FromString] never reads it ([parseAuthority] still checks and
    decodes the userinfo, so its errors are kept). *)
Record URL := mkURL {
  Scheme : string;
  Opaque : string;
  Host : string;
  Path : string;
  RawPath : string;
  OmitHost : bool;
  ForceQuery : bool;
  RawQuery : string;
  Fragment : string;
  RawFragment : string
}.

Definition emptyURL : URL := mkURL "" "" "" "" "" false false "" "" "".

Definition with_path (u : URL) (p rp : string) : URL :=
  mkURL (Scheme u) (Opaque u) (Host u) p rp (OmitHost u) (ForceQuery u)
        (RawQuery u) (Fragment u) (RawFragment u).

Definition with_fragment (u : URL) (f rf : string) : URL :=
  mkURL (Scheme u) (Opaque u) (Host u) (Path u) (RawPath u) (OmitHost u)
        (ForceQuery u) (RawQuery u) f rf.

(** [URL.setPath(p)]. *)
Definition setPath (u : URL) (p : string) : result URL :=
  match unescape p encodePath with
  | Err e => Err e
  | Ok path =>
      Ok (with_path u path (if String.eqb (escape path encodePath) p then "" else p))
  end.

(** [URL.EscapedPath()]. *)
Definition EscapedPath (u : URL) : string :=
  if negb (String.eqb (RawPath u) "") && validEncoded (RawPath u) encodePath &&
     (match unescape (RawPath u) encodePath with
      | Ok p => String.eqb p (Path u) | Err _ => false end)
  then RawPath u
  else if String.eqb (Path u) "*" then "*"
  else escape (Path u) encodePath.

(** [URL.setFragment(f)]. *)
Definition setFragment (u : URL) (f : string) : result URL :=
  match unescape f encodeFragment with
  | Err e => Err e
  | Ok frag =>
      Ok (with_fragment u frag (if String.eqb (escape frag encodeFragment) f then "" else f))
  end.

(** [URL.EscapedFragment()]. *)
Definition EscapedFragment (u : URL) : string :=
  if negb (String.eqb (RawFragment u) "") && validEncoded (RawFragment u) encodeFragment &&
     (match unescape (RawFragment u) encodeFragment with
      | Ok f => String.eqb f (Fragment u) | Err _ => false end)
  then RawFragment u
  else escape (Fragment u) encodeFragment.

(** [strings.Split(s, "/")]. *)
Fixpoint split_slash (s : string) : list string :=
  match s with
  | EmptyString => [""]
  | String c s' =>
      match split_slash s' with
      | [] => [String c EmptyString]
      | seg :: segs => if ascii_dec c slash then "" :: seg :: segs else String c seg :: segs
      end
  end.

(** One step of [path.Clean] on the stack of kept segments (top first):
    empty and "." segments vanish, ".." removes the last kept segment, or is
    kept in a relative path that has nothing left to remove. *)
Definition clean_step (rooted : bool) (st : list string) (seg : string) : list string :=
  if String.eqb seg "" || String.eqb seg "." then st
  else if String.eqb seg ".." then
    match st with
    | x :: st' => if String.eqb x ".." then ".." :: st else st'
    | [] => if rooted then [] else [".."]
    end
  else seg :: st.

(** [path.Clean(p)], in its segment-stack formulation. *)
Definition Clean (p : string) : string :=
  if String.eqb p "" then "." else
  let rooted := HasPrefix p "/" in
  let out := Join (rev (fold_left (clean_step rooted) (split_slash p) [])) "/" in
  if rooted then "/" +:+ out
  else if String.eqb out "" then "." else out.

(** [path.Join(elem...)]. *)
Definition PathJoin (elems : list string) : string :=
  if (fold_left (fun n e => n + String.length e) elems 0 =? 0)%nat then "" else
  Clean (fold_left (fun buf e =>
           if negb (String.eqb buf "") || negb (String.eqb e "") then
             (if negb (String.eqb buf "") then buf +:+ "/" else buf) +:+ e
           else buf) elems "").

(** [URL.JoinPath(elem...)] (Go 1.21 and later); the error of
    [setPath] is ignored, as in Go. *)
Definition JoinPath (u : URL) (elems : list string) : URL :=
  let e0 := EscapedPath u in
  let all := if HasPrefix e0 "/" then e0 :: elems else ("/" +:+ e0) :: elems in
  let p := if HasPrefix e0 "/" then PathJoin all else drop 1 (PathJoin all) in
  let p := if HasSuffix (default "" (last all)) "/" && negb (HasSuffix p "/")
           then p +:+ "/" else p in
  match setPath u p with Ok u' => u' | Err _ => u end.

(** [URL.String()] (without userinfo). *)
Definition URLString (u : URL) : string :=
  let pre := if String.eqb (Scheme u) "" then "" else Scheme u +:+ ":" in
  let body :=
    if negb (String.eqb (Opaque u) "") then Opaque u else
    let auth :=
      if negb (String.eqb (Scheme u) "") || negb (String.eqb (Host u) "") then
        if OmitHost u && String.eqb (Host u) "" then ""
        else (if negb (String.eqb (Host u) "") || negb (String.eqb (Path u) "")
              then "//" else "") +:+
             (if negb (String.eqb (Host u) "") then escape (Host u) encodeHost else "")
      else "" in
    let path := EscapedPath u in
    let sep := match path with
               | String c _ => if negb (Ascii.eqb c slash) && negb (String.eqb (Host u) "")
                               then "/" else ""
               | EmptyString => "" end in
    let dot := if String.eqb (pre +:+ auth +:+ sep) "" &&
                  Contains (let '(seg, _, _) := Cut path slash in seg) ":"
               then "./" else "" in
    auth +:+ sep +:+ dot +:+ path in
  let query := if ForceQuery u || negb (String.eqb (RawQuery u) "")
               then "?" +:+ RawQuery u else "" in
  let frag := if negb (String.eqb (Fragment u) "") then "#" +:+ EscapedFragment u else "" in
  pre +:+ body +:+ query +:+ frag.

(** [stringContainsCTLByte(s)]. *)
Fixpoint stringContainsCTLByte (s : string) : bool :=
  match s with
  | EmptyString => false
  | String c s' => ((code c <? 32) || (code c =? 127))%N || stringContainsCTLByte s'
  end.

(** The loop of [getScheme(rawURL)]; [i] is the index of the first byte of [t]
    in [raw]. *)
Fixpoint getScheme_loop (raw : string) (i : nat) (t : string) : result (string * string) :=
  match t with
  | EmptyString => Ok ("", raw)
  | String c t' =>
      if is_letter c then getScheme_loop raw (S i) t'
      else if is_digit c || one_of c "+-." then
        if (i =? 0)%nat then Ok ("", raw) else getScheme_loop raw (S i) t'
      else if Ascii.eqb c ":" then
        if (i =? 0)%nat then Err MissingProtocolScheme else Ok (take i raw, t')
      else Ok ("", raw)
  end.

Definition getScheme (raw : string) : result (string * string) := getScheme_loop raw 0 raw.

(** [validOptionalPort(port)]. *)
Definition validOptionalPort (port : string) : bool :=
  match port with
  | EmptyString => true
  | String c rest =>
      Ascii.eqb c ":" &&
      (fix digits (s : string) : bool :=
         match s with
         | EmptyString => true
         | String d s' => is_digit d && digits s'
         end) rest
  end.

(** [parseHost(host)] (Go 1.21). *)
Definition parseHost (host : string) : result string :=
  if HasPrefix host "[" then
    match LastIndex host "]" with
    | None => Err MissingBracket
    | Some i =>
        let colonPort := drop (S i) host in
        if negb (validOptionalPort colonPort) then Err (InvalidPort colonPort) else
        match Index (take i host) "%25" with
        | Some zone =>
            match unescape (take zone host) encodeHost,
                  unescape (String.substring zone (i - zone) host) encodeZone,
                  unescape (drop i host) encodeHost with
            | Err e, _, _ => Err e
            | Ok _, Err e, _ => Err e
            | Ok _, Ok _, Err e => Err e
            | Ok h1, Ok h2, Ok h3 => Ok (h1 +:+ h2 +:+ h3)
            end
        | None => unescape host encodeHost
        end
    end
  else
    match LastIndex host ":" with
    | Some i =>
        let colonPort := drop i host in
        if negb (validOptionalPort colonPort) then Err (InvalidPort colonPort)
        else unescape host encodeHost
    | None => unescape host encodeHost
    end.

(** [validUserinfo(s)]; a byte outside ASCII is refused, as the rune it
    belongs to is. *)
Fixpoint validUserinfo (s : string) : bool :=
  match s with
  | EmptyString => true
  | String c s' =>
      (is_letter c || is_digit c || one_of c "-._:~!$&'()*+,;=%@") && validUserinfo s'
  end.

(** [parseAuthority(authority)], returning the host. *)
Definition parseAuthority (authority : string) : result string :=
  let i := LastIndex authority "@" in
  match parseHost (match i with None => authority | Some i => drop (S i) authority end) with
  | Err e => Err e
  | Ok host =>
      match i with
      | None => Ok host
      | Some i =>
          let userinfo := take i authority in
          if negb (validUserinfo userinfo) then Err InvalidUserinfo else
          if negb (Contains userinfo ":") then
            match unescape userinfo encodeUserPassword with
            | Err e => Err e | Ok _ => Ok host end
          else
            let '(username, password, _) := Cut userinfo ":" in
            match unescape username encodeUserPassword with
            | Err e => Err e
            | Ok _ => match unescape password encodeUserPassword with
                      | Err e => Err e | Ok _ => Ok host end
            end
      end
  end.

(** [parse(rawURL, viaRequest = false)] (Go 1.21). *)
Definition parse (rawURL : string) : result URL :=
  if stringContainsCTLByte rawURL then Err InvalidControlCharacter else
  if String.eqb rawURL "*" then Ok (with_path emptyURL "*" "") else
  match getScheme rawURL with
  | Err e => Err e
  | Ok (scheme0, rest0) =>
      let scheme := ToLower scheme0 in
      let '(rest, rawQuery, force) :=
        if HasSuffix rest0 "?" && (Count rest0 "?" =? 1)%nat
        then (take (String.length rest0 - 1) rest0, "", true)
        else let '(r, q, _) := Cut rest0 "?" in (r, q, false) in
      if negb (HasPrefix rest "/") && negb (String.eqb scheme "") then
        (* rootless paths are opaque *)
        Ok (mkURL scheme rest "" "" "" false force rawQuery "" "")
      else if negb (HasPrefix rest "/") &&
              Contains (let '(seg, _, _) := Cut rest slash in seg) ":" then
        Err FirstSegmentColon
      else
        let auth :=
          if (negb (String.eqb scheme "") || negb (HasPrefix rest "///")) &&
             HasPrefix rest "//" then
            let authority := drop 2 rest in
            let '(authority, rest') :=
              match Index authority "/" with
              | Some i => (take i authority, drop i authority)
              | None => (authority, "")
              end in
            match parseAuthority authority with
            | Err e => Err e
            | Ok host => Ok (host, false, rest')
            end
          else Ok ("", negb (String.eqb scheme "") && HasPrefix rest "/", rest) in
        match auth with
        | Err e => Err e
        | Ok (host, omit, rest') =>
            setPath (mkURL scheme "" host "" "" omit force rawQuery "" "") rest'
        end
  end.

(** [url.Parse(rawURL)]. *)
Definition Parse (rawURL : string) : result URL :=
  let '(u, frag, _) := Cut rawURL "#" in
  match parse u with
  | Err e => Err (Wrap "parse" e)
  | Ok url =>
      if String.eqb frag "" then Ok url else
      match setFragment url frag with
      | Err e => Err (Wrap "parse" e)
      | Ok url' => Ok url'
      end
  end.

(** [url.Values], a [map[string][]string]. *)
Abbreviation Values := (gmap string (list string)).

Definition Values_Get (v : Values) (k : string) : string :=
  match v !! k with Some (x :: _) => x | _ => "" end.
Definition Values_Has (v : Values) (k : string) : bool :=
  bool_decide (is_Some (v !! k)).
Definition Values_Set (v : Values) (k x : string) : Values := <[k := [x]]> v.
Definition Values_Add (v : Values) (k x : string) : Values :=
  <[k := default [] (v !! k) ++ [x]]> v.
Definition Values_Del (v : Values) (k : string) : Values := delete k v.

Definition keep_first (err : option error) (e : error) : option error :=
  match err with None => Some e | Some _ => err end.

(** The loop of [parseQuery(m, query)]; each iteration consumes at least
    one byte, so [String.length query] iterations suffice. *)
Fixpoint parseQuery_loop (fuel : nat) (m : Values) (err : option error)
    (query : string) : Values * option error :=
  match fuel with
  | O => (m, err)
  | S fuel' =>
      if String.eqb query "" then (m, err) else
      let '(key, query', _) := Cut query amp in
      if Contains key ";" then parseQuery_loop fuel' m (Some InvalidSemicolon) query'
      else if String.eqb key "" then parseQuery_loop fuel' m err query'
      else
        let '(k, value, _) := Cut key "=" in
        match QueryUnescape k with
        | Err e1 => parseQuery_loop fuel' m (keep_first err e1) query'
        | Ok k' =>
            match QueryUnescape value with
            | Err e1 => parseQuery_loop fuel' m (keep_first err e1) query'
            | Ok v' => parseQuery_loop fuel' (Values_Add m k' v') err query'
            end
        end
  end.

(** [url.ParseQuery(query)]. *)
Definition ParseQuery (query : string) : Values * option error :=
  parseQuery_loop (String.length query) ∅ None query.

(** [Values.Encode()]: keys in increasing byte order ([sort.Strings]),
    every value of a key in order, pairs joined by '&'. *)
Definition Encode (v : Values) : string :=
  let keys := merge_sort String.le ((map_to_list v).*1) in
  Join (concat (map (fun k => map (fun x => QueryEscape k +:+ "=" +:+ QueryEscape x)
                                  (default [] (v !! k))) keys)) "&".

End GoURL.

Import GoURL.

(* ------------------------------------------------------------------ *)
(** ** packageurl.go *)

Module Purl.

(** [s[:n]] and [s[n:]] as Go evaluates them: out of range, they panic. *)
Definition slice_to (s : string) (n : nat) : go string :=
  if (n <=? String.length s)%nat then Ret (take n s)
  else Panic "runtime error: slice bounds out of range".
Definition slice_from (s : string) (n : nat) : go string :=
  if (n <=? String.length s)%nat then Ret (drop n s)
  else Panic "runtime error: slice bounds out of range".

(** The known purl types used by the rules. *)
Definition TypeAlpm := "alpm".
Definition TypeApk := "apk".
Definition TypeBitbucket := "bitbucket".
Definition TypeComposer := "composer".
Definition TypeConan := "conan".
Definition TypeCran := "cran".
Definition TypeDebian := "deb".
Definition TypeGithub := "github".
Definition TypeGolang := "golang".
Definition TypeNPM := "npm".
Definition TypeQpkg := "qpkg".
Definition TypePyPi := "pypi".
Definition TypeRPM := "rpm".
Definition TypeSwift := "swift".
Definition TypeHuggingface := "huggingface".
Definition TypeMLFlow := "mlflow".

(** [PackageURL]; [Type] is a keyword of Rocq, hence [Type_]. *)
Record PackageURL := mkPURL {
  Type_ : string;
  Namespace : string;
  Name : string;
  Version : string;
  Qualifiers : Values;
  Subpath : string
}.

(** [PackageURL{}]; a nil [url.Values] is the empty map. *)
Definition zeroPURL : PackageURL := mkPURL "" "" "" "" ∅ "".

Definition NewPackageURL (purlType namespace name version : string)
    (qualifiers : Values) (subpath : string) : PackageURL :=
  mkPURL purlType namespace name version qualifiers subpath.

(** [QualifierKeyPattern] = [^[A-Za-z\.\-_][0-9A-Za-z\.\-_]*$]. *)
Definition key_start (c : ascii) : bool := is_letter c || one_of c ".-_".
Definition key_char (c : ascii) : bool := is_digit c || key_start c.
Fixpoint all_key_chars (s : string) : bool :=
  match s with
  | EmptyString => true
  | String c s' => key_char c && all_key_chars s'
  end.

(** [validQualifierKey(key)]. *)
Definition validQualifierKey (key : string) : bool :=
  match key with
  | EmptyString => false
  | String c s => key_start c && all_key_chars s
  end.

(** [ToString()]. *)
Definition ToString (p : PackageURL) : string :=
  let u := mkURL "pkg" "" "" "" "" false false (Encode (Qualifiers p)) (Subpath p) "" in
  let nameWithVersion :=
    PathEscape (Name p) +:+
    (if negb (String.eqb (Version p) "") then "@" +:+ Version p else "") in
  let u := JoinPath u [Type_ p; Namespace p; nameWithVersion] in
  (* u.Opaque, u.Path = u.EscapedPath(), "" *)
  let u := mkURL (Scheme u) (EscapedPath u) (Host u) "" (RawPath u) (OmitHost u)
                 (ForceQuery u) (RawQuery u) (Fragment u) (RawFragment u) in
  URLString u.

(** The [for k := range qualifiers] loop of [getQualifiers], for the
    sequence [keys] of keys that the range statement yields.  Go leaves
    this sequence open: it yields every key present when the loop starts
    (the body deletes only the key it is at), in an unspecified order, and
    may or may not yield a key that the body adds.  Go yields only keys
    present in the map; a key of [keys] that is absent when the loop
    reaches it is skipped. *)
Fixpoint getQualifiers_loop (keys : list string) (qualifiers : Values)
    : go (result Values) :=
  match keys with
  | [] => Ret (Ok qualifiers)
  | k :: ks =>
      if negb (Values_Has qualifiers k) then getQualifiers_loop ks qualifiers else
      if negb (validQualifierKey k) then Ret (Err (InvalidQualifierKey k)) else
      let v := Values_Get qualifiers k in
      let! first := slice_to v 1 in
      let! rest := slice_from v 1 in
      let normalisedValue := ToLower first +:+ rest in
      let normalisedKey := ToLower k in
      if negb (String.eqb normalisedKey k) then
        getQualifiers_loop ks
          (Values_Set (Values_Del qualifiers k) normalisedKey normalisedValue)
      else if negb (String.eqb normalisedValue v) then
        getQualifiers_loop ks (Values_Set qualifiers k normalisedValue)
      else getQualifiers_loop ks qualifiers
  end.

(** [getQualifiers(rawQuery)] where the range loop yields the keys
    [order qualifiers], for the map [qualifiers] that [url.ParseQuery]
    returns. *)
Definition getQualifiers_with (order : Values -> list string) (rawQuery : string)
    : go (result Values) :=
  let '(qualifiers, err) := ParseQuery rawQuery in
  match err with
  | Some e => Ret (Err (Wrap "could not parse qualifiers" e))
  | None => getQualifiers_loop (order qualifiers) qualifiers
  end.

(** [getQualifiers(rawQuery)] for one of the iteration orders Go allows:
    the keys present at the start, in the order of [map_to_list], and no
    key that the loop adds.  [FromString] below uses this order. *)
Definition getQualifiers (rawQuery : string) : go (result Values) :=
  getQualifiers_with (fun q => (map_to_list q).*1) rawQuery.

(** [separateNamespaceNameVersion(path)]. *)
Definition separateNamespaceNameVersion (path : string)
    : result (string * string * string) :=
  let '(ns_res, name) :=
    match LastIndex path slash with
    | Some namespaceSep => (PathUnescape (take namespaceSep path), drop (S namespaceSep) path)
    | None => (Ok "", path)
    end in
  match ns_res with
  | Err e => Err (Wrap "error unescaping namespace" e)
  | Ok ns =>
      let '(version_res, name) :=
        match LastIndex name at_sign with
        | Some versionSep => (PathUnescape (drop (S versionSep) name), take versionSep name)
        | None => (Ok "", name)
        end in
      match version_res with
      | Err e => Err (Wrap "error unescaping version" e)
      | Ok version =>
          match PathUnescape name with
          | Err e => Err (Wrap "error unescaping name" e)
          | Ok name =>
              if String.eqb name "" then Err MissingName else Ok (ns, name, version)
          end
      end
  end.

Definition in_types (t : string) (ts : list string) : bool :=
  existsb (String.eqb t) ts.

(** [typeAdjustNamespace(purlType, ns)]. *)
Definition typeAdjustNamespace (purlType ns : string) : string :=
  if in_types purlType [TypeAlpm; TypeApk; TypeBitbucket; TypeComposer; TypeDebian;
                        TypeGithub; TypeGolang; TypeNPM; TypeRPM; TypeQpkg]
  then ToLower ns else ns.

(** [adjustMlflowName(name, qualifiers)]. *)
Definition adjustMlflowName (name : string) (qualifiers : Values) : string :=
  let v := Values_Get qualifiers "repository_url" in
  if String.eqb v "" then name
  else if Contains v "azureml" then name
  else if Contains v "databricks" then ToLower name
  else name.

(** [typeAdjustName(purlType, name, qualifiers)]. *)
Definition typeAdjustName (purlType name : string) (qualifiers : Values) : string :=
  if in_types purlType [TypeAlpm; TypeApk; TypeBitbucket; TypeComposer; TypeDebian;
                        TypeGithub; TypeGolang; TypeNPM]
  then ToLower name
  else if String.eqb purlType TypePyPi then ToLower (ReplaceAll name "_" "-")
  else if String.eqb purlType TypeMLFlow then adjustMlflowName name qualifiers
  else name.

(** [typeAdjustVersion(purlType, version)]. *)
Definition typeAdjustVersion (purlType version : string) : string :=
  if String.eqb purlType TypeHuggingface then ToLower version else version.

(** [validCustomRules(p)]; [None] is a nil error. *)
Definition validCustomRules (p : PackageURL) : option error :=
  let q := Qualifiers p in
  if String.eqb (Type_ p) TypeConan then
    let channelSet := Values_Has q "channel" in
    let nsSet := negb (String.eqb (Namespace p) "") in
    if nsSet && channelSet then
      if String.eqb (Values_Get q "channel") "" then
        Some (CustomRule "the qualifier channel must be not empty if namespace is present")
      else None
    else if nsSet && negb channelSet then
      Some (CustomRule "channel qualifier does not exist")
    else if negb nsSet && channelSet then
      if negb (String.eqb (Values_Get q "channel") "") then
        Some (CustomRule "namespace is required if channel is non empty")
      else None
    else None
  else if String.eqb (Type_ p) TypeSwift then
    if String.eqb (Namespace p) "" then Some (CustomRule "namespace is required")
    else if String.eqb (Version p) "" then Some (CustomRule "version is required")
    else None
  else if String.eqb (Type_ p) TypeCran then
    if String.eqb (Version p) "" then Some (CustomRule "version is required")
    else None
  else None.

(** [FromString(purl)] up to the construction of [pURL]: every early
    [return PackageURL{}, err] is an [Err]. *)
Definition FromString_record (purl : string) : go (result PackageURL) :=
  match Parse purl with
  | Err e => Ret (Err (Wrap "failed to parse as URL" e))
  | Ok u =>
      if negb (String.eqb (Scheme u) "pkg") then Ret (Err (SchemeNotPkg (Scheme u))) else
      let p := if String.eqb (Opaque u) ""
               then TrimPrefix (PathJoin [Host u; Path u]) "/" else Opaque u in
      let '(typ, p, ok) := Cut p slash in
      if negb ok then Ret (Err MissingTypeOrName) else
      let typ := ToLower typ in
      let! qr := getQualifiers (RawQuery u) in
      match qr with
      | Err e => Ret (Err (Wrap "invalid qualifiers" e))
      | Ok qualifiers =>
          match separateNamespaceNameVersion p with
          | Err e => Ret (Err e)
          | Ok (namespace, name, version) =>
              Ret (Ok (mkPURL typ (typeAdjustNamespace typ namespace)
                              (typeAdjustName typ name qualifiers)
                              (typeAdjustVersion typ version)
                              qualifiers (Trim (Fragment u) slash)))
          end
      end
  end.

(** [FromString(purl)]: [return pURL, validCustomRules(pURL)]. *)
Definition FromString (purl : string) : go (PackageURL * option error) :=
  let! r := FromString_record purl in
  match r with
  | Err e => Ret (zeroPURL, Some e)
  | Ok pURL => Ret (pURL, validCustomRules pURL)
  end.

End Purl.

(* ------------------------------------------------------------------ *)
(** ** The slice-based variant: [Qualifiers []Qualifier] *)

Module Ordered.

Import Purl.

(** [Qualifier]. *)
Record Qualifier := mkQualifier { Key : string; Value : string }.

(** [Qualifiers], a slice of key=value pairs. *)
Abbreviation Qualifiers := (list Qualifier).

(** [q.urlQuery()]. *)
Definition urlQuery (q : Qualifiers) : string :=
  Encode (fold_left (fun v qq => Values_Add v (Key qq) (Value qq)) q ∅).

(** The order of the [sort.Slice] call of [QualifiersFromMap]. *)
Definition key_le (a b : Qualifier) : Prop := String.le (Key a) (Key b).

Global Instance key_le_dec : RelDecision key_le.
Proof. intros a b. unfold key_le. apply _. Defined.

Global Instance key_le_total : Total key_le.
Proof. intros a b. apply (total String.le). Qed.

Global Instance key_le_trans : Transitive key_le.
Proof. intros a b c. unfold key_le. apply transitivity. Qed.

(** [QualifiersFromMap(mm)], for the map iteration order [kvs] (Go leaves
    it unspecified).  [sort.Slice] is not stable, but the keys of a map are
    distinct, so every sort by key yields the same slice; the model sorts
    with [merge_sort]. *)
Definition QualifiersFromMap_iter (kvs : list (string * string)) : Qualifiers :=
  merge_sort key_le (map (fun kv => mkQualifier kv.1 kv.2) kvs).

Definition QualifiersFromMap (mm : gmap string string) : Qualifiers :=
  QualifiersFromMap_iter (map_to_list mm).

(** [qq.Map()]. *)
Definition Map (qq : Qualifiers) : gmap string string :=
  fold_left (fun m q => <[Key q := Value q]> m) qq ∅.

(** The loop of [parseQualifiers(rawQuery)]; each iteration consumes at
    least one byte, so [String.length rawQuery] iterations suffice. *)
Fixpoint parseQualifiers_loop (fuel : nat) (q : Qualifiers) (rawQuery : string)
    : go (result Qualifiers) :=
  match fuel with
  | O => Ret (Ok q)
  | S fuel' =>
      if String.eqb rawQuery "" then Ret (Ok q) else
      let '(key, rawQuery', _) := Cut rawQuery amp in
      if Contains key ";" then Ret (Err InvalidSemicolon)
      else if String.eqb key "" then parseQualifiers_loop fuel' q rawQuery'
      else
        let '(key, value, _) := Cut key "=" in
        match QueryUnescape key with
        | Err e => Ret (Err (Wrap "error unescaping qualifier key" e))
        | Ok key =>
            if negb (validQualifierKey key) then Ret (Err (InvalidQualifierKey key)) else
            match QueryUnescape value with
            | Err e => Ret (Err (Wrap "error unescaping qualifier value" e))
            | Ok value =>
                let! first := slice_to value 1 in
                let! rest := slice_from value 1 in
                parseQualifiers_loop fuel'
                  (q ++ [mkQualifier (ToLower key) (ToLower first +:+ rest)]) rawQuery'
            end
        end
  end.

(** [separateNamespaceNameVersion(path)] of the slice-based variant: the
    name and version come from [strings.Split(path, "@")], that is the parts
    before the first '@' and between the first and the second. *)
Definition separateNamespaceNameVersion (path : string)
    : result (string * string * string) :=
  let '(ns_res, path) :=
    match LastIndex path slash with
    | Some namespaceSep => (PathUnescape (take namespaceSep path), drop (S namespaceSep) path)
    | None => (Ok "", path)
    end in
  match ns_res with
  | Err e => Err (Wrap "error unescaping namespace" e)
  | Ok ns =>
      let '(v0, after, several) := Cut path at_sign in
      match PathUnescape v0 with
      | Err e => Err (Wrap "error unescaping name" e)
      | Ok name =>
          if String.eqb name "" then Err MissingName
          else if several then
            let '(v1, _, _) := Cut after at_sign in
            match PathUnescape v1 with
            | Err e => Err (Wrap "error unescaping version" e)
            | Ok version => Ok (ns, name, version)
            end
          else Ok (ns, name, "")
      end
  end.

(** [parseQualifiers(rawQuery)]. *)
Definition parseQualifiers (rawQuery : string) : go (result Qualifiers) :=
  parseQualifiers_loop (String.length rawQuery) [] rawQuery.

(** [q.String()]: [fmt.Sprintf("%s=%s", q.Key, url.PathEscape(q.Value))]. *)
Definition Qualifier_String (q : Qualifier) : string :=
  Key q +:+ "=" +:+ PathEscape (Value q).

(** [qq.String()]. *)
Definition Qualifiers_String (qq : Qualifiers) : string :=
  Join (map Qualifier_String qq) "&".

End Ordered.

(** The [PackageURL] of the slice-based variant and the functions of that
    file that read its qualifiers through [qq.Map()].  The module is not
    imported: its names are used qualified ([Slice.FromString]).
    [typeAdjustNamespace] and [typeAdjustVersion] have the same bodies in
    both files and are shared with [Purl]. *)
Module Slice.

Import Purl Ordered.

(** [PackageURL] with [Qualifiers []Qualifier]. *)
Record PackageURL := mkPURL {
  Type_ : string;
  Namespace : string;
  Name : string;
  Version : string;
  Qualifiers : list Qualifier;
  Subpath : string
}.

Definition zeroPURL : PackageURL := mkPURL "" "" "" "" [] "".

(** [adjustMlflowName(name, qualifiers map[string]string)]. *)
Definition adjustMlflowName (name : string) (qualifiers : gmap string string) : string :=
  match qualifiers !! "repository_url" with
  | Some repo =>
      if Contains repo "azureml" then name
      else if Contains repo "databricks" then ToLower name
      else name
  | None => name
  end.

(** [typeAdjustName(purlType, name, qualifiers)]. *)
Definition typeAdjustName (purlType name : string) (qualifiers : list Qualifier) : string :=
  let quals := Map qualifiers in
  if in_types purlType [TypeAlpm; TypeApk; TypeBitbucket; TypeComposer; TypeDebian;
                        TypeGithub; TypeGolang; TypeNPM]
  then ToLower name
  else if String.eqb purlType TypePyPi then ToLower (ReplaceAll name "_" "-")
  else if String.eqb purlType TypeMLFlow then adjustMlflowName name quals
  else name.

(** [validCustomRules(p)]; [None] is a nil error. *)
Definition validCustomRules (p : PackageURL) : option error :=
  let q := Map (Qualifiers p) in
  if String.eqb (Type_ p) TypeConan then
    if negb (String.eqb (Namespace p) "") then
      match q !! "channel" with
      | Some val =>
          if String.eqb val "" then
            Some (CustomRule "the qualifier channel must be not empty if namespace is present")
          else None
      | None => Some (CustomRule "channel qualifier does not exist")
      end
    else
      match q !! "channel" with
      | Some val =>
          if negb (String.eqb val "") then
            Some (CustomRule "namespace is required if channel is non empty")
          else None
      | None => None
      end
  else if String.eqb (Type_ p) TypeSwift then
    if String.eqb (Namespace p) "" then Some (CustomRule "namespace is required")
    else if String.eqb (Version p) "" then Some (CustomRule "version is required")
    else None
  else if String.eqb (Type_ p) TypeCran then
    if String.eqb (Version p) "" then Some (CustomRule "version is required")
    else None
  else None.

(** [FromString(purl)] up to the construction of [pURL]. *)
Definition FromString_record (purl : string) : go (result PackageURL) :=
  match Parse purl with
  | Err e => Ret (Err (Wrap "failed to parse as URL" e))
  | Ok u =>
      if negb (String.eqb (Scheme u) "pkg") then Ret (Err (SchemeNotPkg (Scheme u))) else
      let p := if String.eqb (Opaque u) ""
               then TrimPrefix (PathJoin [Host u; Path u]) "/" else Opaque u in
      let '(typ, p, ok) := Cut p slash in
      if negb ok then Ret (Err MissingTypeOrName) else
      let typ := ToLower typ in
      let! qr := parseQualifiers (RawQuery u) in
      match qr with
      | Err e => Ret (Err (Wrap "invalid qualifiers" e))
      | Ok qualifiers =>
          match Ordered.separateNamespaceNameVersion p with
          | Err e => Ret (Err e)
          | Ok (namespace, name, version) =>
              Ret (Ok (mkPURL typ (typeAdjustNamespace typ namespace)
                              (typeAdjustName typ name qualifiers)
                              (typeAdjustVersion typ version)
                              qualifiers (Trim (Fragment u) slash)))
          end
      end
  end.

(** [FromString(purl)]: [return pURL, validCustomRules(pURL)]. *)
Definition FromString (purl : string) : go (PackageURL * option error) :=
  let! r := FromString_record purl in
  match r with
  | Err e => Ret (zeroPURL, Some e)
  | Ok pURL => Ret (pURL, validCustomRules pURL)
  end.

End Slice.

(* ------------------------------------------------------------------ *)
(** ** [PackageURL.Normalize], modelled from the specification

    The tests of the slice-based variant (packageurl_test.go, TestNormalize)
    call [PackageURL.Normalize], whose code is not among the source files.
    [SpecNormalize.Normalize] follows the specification's
    [Record.normalize] (section 6) and TestNormalize's cases: the type is
    lower-cased and must be non-empty; the qualifiers go through
    [fromPairs] (section 4.2: key check, lower-cased key, first byte of the
    value lower-cased, a repeated key rejected), then lose their empty
    values and are sorted by key; the name must be non-empty; '/' is
    trimmed from both ends of the namespace and of the subpath, and a "."
    or ".." subpath segment other than the first is rejected (section 8:
    "sub/../path" fails, "./sub/path" is kept); the type adjustments
    (section 4.3) and the structural rules (section 4.4) come last. *)
Module SpecNormalize.

Import Purl Ordered.

(** The single-character transform of a value's first byte. *)
Definition lowerFirst (v : string) : string :=
  match v with
  | EmptyString => EmptyString
  | String c r => String (lower c) r
  end.

(** [fromPairs], given the (lower-cased) keys already seen. *)
Fixpoint fromPairs_seen (seen : list string) (qs : list Qualifier)
    : result (list Qualifier) :=
  match qs with
  | [] => Ok []
  | q :: qs' =>
      if negb (validQualifierKey (Key q)) then Err (InvalidQualifierKey (Key q)) else
      let k := ToLower (Key q) in
      if existsb (String.eqb k) seen then Err (DuplicateQualifierKey k) else
      match fromPairs_seen (k :: seen) qs' with
      | Err e => Err e
      | Ok l => Ok (mkQualifier k (lowerFirst (Value q)) :: l)
      end
  end.

Definition fromPairs (qs : list Qualifier) : result (list Qualifier) :=
  fromPairs_seen [] qs.

(** The canonical qualifier set: empty values dropped, keys ascending. *)
Definition canonicalQualifiers (qs : list Qualifier) : list Qualifier :=
  merge_sort key_le (filter (fun q => Value q <> "") qs).

Definition dotSegment (seg : string) : bool :=
  String.eqb seg "." || String.eqb seg "..".

(** [Record.normalize()]. *)
Definition Normalize (p : Slice.PackageURL) : result Slice.PackageURL :=
  let typ := ToLower (Slice.Type_ p) in
  if String.eqb typ "" then Err MissingTypeOrName else
  match fromPairs (Slice.Qualifiers p) with
  | Err e => Err e
  | Ok qs =>
      let qs := canonicalQualifiers qs in
      if String.eqb (Slice.Name p) "" then Err MissingName else
      let subpath := Trim (Slice.Subpath p) slash in
      if existsb dotSegment (tail (split_slash subpath))
      then Err (InvalidSubpathSegment subpath) else
      let namespace := Trim (Slice.Namespace p) slash in
      let r := Slice.mkPURL typ (typeAdjustNamespace typ namespace)
                 (Slice.typeAdjustName typ (Slice.Name p) qs)
                 (typeAdjustVersion typ (Slice.Version p)) qs subpath in
      match Slice.validCustomRules r with
      | Some e => Err e
      | None => Ok r
      end
  end.

End SpecNormalize.

(* ------------------------------------------------------------------ *)
(** ** Statements of the specification, for comparison with the code *)

Module SpecSide.

Import Purl.

(** [s] contains [sub] as a substring. *)
Definition has_substring (s sub : string) : Prop :=
  exists a b, s = a +:+ sub +:+ b.

(** The part of [path] before its last '/' ([None] when there is no '/')
    and the part after it. *)
Inductive namespace_split : string -> option string -> string -> Prop :=
  | ns_split_found a r :
      ContainsByte r slash = false -> namespace_split (a +:+ String slash r) (Some a) r
  | ns_split_none r :
      ContainsByte r slash = false -> namespace_split r None r.

(** [rest] split at its last '@' into the name and the version ([None] when
    there is no '@'). *)
Inductive name_version_split : string -> string -> option string -> Prop :=
  | nv_split_found n v :
      ContainsByte v at_sign = false -> name_version_split (n +:+ String at_sign v) n (Some v)
  | nv_split_none n :
      ContainsByte n at_sign = false -> name_version_split n n None.

(** Percent-decoding of an optional part; an absent part is empty. *)
Definition decode_opt (o : option string) : result string :=
  match o with None => Ok "" | Some s => PathUnescape s end.

(** The per-type structural rules of the specification. *)
Definition rules_hold (p : PackageURL) : Prop :=
  if String.eqb (Type_ p) "conan" then
    (Namespace p <> "" ->
       is_Some (Qualifiers p !! "channel") /\ Values_Get (Qualifiers p) "channel" <> "") /\
    (Namespace p = "" ->
       is_Some (Qualifiers p !! "channel") -> Values_Get (Qualifiers p) "channel" = "")
  else if String.eqb (Type_ p) "swift" then Namespace p <> "" /\ Version p <> ""
  else if String.eqb (Type_ p) "cran" then Version p <> ""
  else True.

(** Strict increase of keys. *)
Definition key_lt (a b : Ordered.Qualifier) : Prop :=
  String.le (Ordered.Key a) (Ordered.Key b) /\ Ordered.Key a <> Ordered.Key b.

(** A qualifier as a key/value pair of a map. *)
Definition toKV (q : Ordered.Qualifier) : string * string := (Ordered.Key q, Ordered.Value q).

End SpecSide.

(* ================================================================== *)
(** * Theorems *)

Import Purl Ordered SpecSide.

(** ** Helper lemmas on strings *)

Lemma append_cons (x : ascii) (a b : string) : String x a +:+ b = String x (a +:+ b).
Proof. reflexivity. Qed.

Lemma append_nil_l (a : string) : "" +:+ a = a.
Proof. reflexivity. Qed.

Lemma append_assoc (a b c : string) : (a +:+ b) +:+ c = a +:+ (b +:+ c).
Proof. induction a as [|x a IH]; [done|]. rewrite !append_cons, IH. done. Qed.

Lemma append_nil_r (a : string) : a +:+ "" = a.
Proof. induction a as [|x a IH]; [done|]. rewrite append_cons, IH. done. Qed.

(** ** [strings.ToLower] on ASCII strings and on one byte *)

Lemma ToLowerASCII_plain (s : string) : hasUpper s = false -> ToLowerASCII s = s.
Proof.
  induction s as [|c s IH]; [done|]. cbn [hasUpper ToLowerASCII]. intros H.
  apply orb_false_iff in H as [Hc Hs]. rewrite IH by exact Hs.
  unfold lower. by rewrite Hc.
Qed.

(** On an ASCII string, [strings.ToLower] lower-cases byte by byte. *)
Lemma ToLower_ascii (s : string) : isASCII s = true -> ToLower s = ToLowerASCII s.
Proof.
  intros H. unfold ToLower. rewrite H.
  destruct (hasUpper s) eqn:E; [done|]. by rewrite ToLowerASCII_plain.
Qed.

Lemma lower_idem (c : ascii) : lower (lower c) = lower c.
Proof. destruct c as [[] [] [] [] [] [] [] []]; reflexivity. Qed.

Lemma lower_ascii (c : ascii) :
  (code c <? RuneSelf)%N = true -> (code (lower c) <? RuneSelf)%N = true.
Proof. destruct c as [[] [] [] [] [] [] [] []]; intros H; (reflexivity || discriminate H). Qed.

Lemma isASCII_ToLowerASCII (s : string) :
  isASCII s = true -> isASCII (ToLowerASCII s) = true.
Proof.
  induction s as [|c s IH]; [done|]. cbn [isASCII ToLowerASCII]. intros H.
  apply andb_prop in H as [Hc Hs]. by rewrite lower_ascii, IH.
Qed.

Lemma ToLowerASCII_idem (s : string) : ToLowerASCII (ToLowerASCII s) = ToLowerASCII s.
Proof. induction s as [|c s IH]; [done|]. cbn [ToLowerASCII]. by rewrite lower_idem, IH. Qed.

Lemma ToLower_idem_ascii (s : string) : isASCII s = true -> ToLower (ToLower s) = ToLower s.
Proof.
  intros H. rewrite (ToLower_ascii s H), ToLower_ascii by (by apply isASCII_ToLowerASCII).
  apply ToLowerASCII_idem.
Qed.

(** [strings.ToLower] of one byte: an ASCII byte through [lower], any other
    byte (not valid UTF-8 on its own) replaced by U+FFFD. *)
Lemma ToLower_byte (c : ascii) :
  ToLower (String c "") =
  if (code c <? RuneSelf)%N then String (lower c) "" else EncodeRune RuneError.
Proof. destruct c as [[] [] [] [] [] [] [] []]; vm_compute; reflexivity. Qed.

Lemma ToLower_first (c : ascii) :
  is_upper_letter c = false -> (code c < 128)%N -> ToLower (String c "") = String c "".
Proof.
  intros Hu Hc. rewrite ToLower_byte.
  replace (code c <? RuneSelf)%N with true by (symmetry; by apply N.ltb_lt).
  unfold lower, is_upper_letter in *. by rewrite Hu.
Qed.

Lemma ToLower_first_head (c : ascii) :
  exists d t, ToLower (String c "") = String d t /\ is_upper_letter d = false.
Proof.
  rewrite ToLower_byte. destruct (code c <? RuneSelf)%N.
  - exists (lower c), "". split; [done|]. destruct c as [[] [] [] [] [] [] [] []]; reflexivity.
  - by eexists _, _.
Qed.

Lemma EncodeRune_nonempty (r : N) : EncodeRune r <> "".
Proof. unfold EncodeRune. repeat case_match; discriminate. Qed.

Lemma append_nonempty_l (a b : string) : a <> "" -> a +:+ b <> "".
Proof. destruct a; [done|]. intros _. rewrite append_cons. discriminate. Qed.

Lemma append_nonempty_r (a b : string) : b <> "" -> a +:+ b <> "".
Proof. destruct a; [done|]. intros _. rewrite append_cons. discriminate. Qed.

Lemma Map_first_nonempty (fuel : nat) (mapping : N -> N) (s : string) (i : nat) (t : string) :
  Map_first fuel mapping s i = Some t -> t <> "".
Proof.
  revert i. induction fuel as [|fuel IH]; intros i H; cbn [Map_first] in H; [discriminate|].
  repeat (case_match; try discriminate; try (by eapply IH));
    injection H as <-; apply append_nonempty_r, append_nonempty_l, EncodeRune_nonempty.
Qed.

(** [strings.ToLower] never empties a non-empty string. *)
Lemma ToLower_nonempty (s : string) : s <> "" -> ToLower s <> "".
Proof.
  intros Hs. unfold ToLower. destruct (isASCII s).
  - destruct (hasUpper s); [|done]. by destruct s.
  - unfold GoStrings.Map. destruct (Map_first (String.length s) unicode_ToLower s 0) eqn:E; [|done].
    by apply Map_first_nonempty in E.
Qed.

(** ** C1 *)

(** C1 (code bug): a record of the open type "generic" whose name contains
    '@' does not survive [ToString] then [FromString]: the name is rendered
    with an unescaped '@', which parsing takes as the version separator. *)
Theorem C1_name_with_at_roundtrip :
  ToString (mkPURL "generic" "" "a@b" "" ∅ "") = "pkg:generic/a@b" /\
  FromString (ToString (mkPURL "generic" "" "a@b" "" ∅ "")) =
    Ret (mkPURL "generic" "" "a" "b" ∅ "", None).
Proof. split; vm_compute; reflexivity. Qed.

(** ** C2 *)

(** C2 (code bug): a qualifier with an empty value makes both parsers
    panic on the slice [v[:1]]: [FromString] of packageurl.go on
    "pkg:t/n?key=" and [parseQualifiers] of the slice-based variant on
    "key=". *)
Theorem C2_empty_qualifier_value_panics :
  (exists msg, FromString "pkg:t/n?key=" = Panic msg) /\
  (exists msg, parseQualifiers "key=" = Panic msg).
Proof. split; eexists; vm_compute; reflexivity. Qed.

Lemma length_append (a b : string) :
  String.length (a +:+ b) = (String.length a + String.length b)%nat.
Proof. induction a as [|x a IH]; [done|]. rewrite append_cons. simpl. lia. Qed.

Lemma take_app (a b : string) : take (String.length a) (a +:+ b) = a.
Proof.
  unfold take. induction a as [|x a IH]; [by destruct b|].
  rewrite append_cons. simpl. by rewrite IH.
Qed.

Lemma Cut_spec (s : string) (c : ascii) a b f :
  Cut s c = (a, b, f) ->
  (f = true /\ s = a +:+ String c b) \/ (f = false /\ s = a /\ b = "").
Proof.
  revert a b f. induction s as [|x s IH]; intros a b f H; simpl in H.
  - inversion H; subst. right. done.
  - destruct (ascii_dec x c) as [->|Hne].
    + inversion H; subst. left. done.
    + destruct (Cut s c) as [[b' a'] f'] eqn:E. inversion H; subst.
      destruct (IH _ _ _ eq_refl) as [[-> ->]|[-> [-> ->]]].
      * left. split; [done|]. by rewrite append_cons.
      * right. done.
Qed.

Lemma getScheme_loop_spec (t raw pre sch rest : string) :
  raw = pre +:+ t ->
  getScheme_loop raw (String.length pre) t = Ok (sch, rest) ->
  sch = "" \/ raw = sch +:+ String ":" rest.
Proof.
  revert pre. induction t as [|c t IH]; intros pre Hraw H; cbn [getScheme_loop] in H.
  - inversion H; subst. by left.
  - assert (Hstep : raw = (pre +:+ String c "") +:+ t /\
                    S (String.length pre) = String.length (pre +:+ String c "")).
    { split; [by rewrite append_assoc|]. rewrite length_append. simpl. lia. }
    destruct Hstep as [Hraw' Hlen].
    destruct (is_letter c).
    { rewrite Hlen in H. by apply (IH _ Hraw'). }
    destruct (is_digit c || one_of c "+-.").
    { destruct (String.length pre =? 0)%nat.
      - inversion H; subst. by left.
      - rewrite Hlen in H. by apply (IH _ Hraw'). }
    destruct (Ascii.eqb c ":") eqn:Hc.
    + apply Ascii.eqb_eq in Hc. subst c.
      destruct (String.length pre =? 0)%nat; [discriminate|].
      inversion H; subst. right. by rewrite take_app.
    + inversion H; subst. by left.
Qed.

Lemma setPath_scheme (u u' : URL) (p : string) :
  setPath u p = Ok u' -> Scheme u' = Scheme u.
Proof. unfold setPath. destruct (unescape p encodePath); intros H; inversion H; done. Qed.

Lemma setFragment_scheme (u u' : URL) (f : string) :
  setFragment u f = Ok u' -> Scheme u' = Scheme u.
Proof. unfold setFragment. destruct (unescape f encodeFragment); intros H; inversion H; done. Qed.

(** The scheme of a parsed URL is the lower-cased text before the first
    ':' of the input, or empty. *)
Lemma parse_scheme (raw : string) (u : URL) :
  parse raw = Ok u ->
  exists sch, Scheme u = ToLower sch /\ (sch = "" \/ exists rest, raw = sch +:+ String ":" rest).
Proof.
  unfold parse. intros H.
  destruct (stringContainsCTLByte raw); [discriminate|].
  destruct (String.eqb raw "*"); [inversion H; subst; exists ""; by split; [|left]|].
  destruct (getScheme raw) as [[sch rest0]|e] eqn:Hg; [|discriminate].
  exists sch.
  assert (Hs : sch = "" \/ exists rest, raw = sch +:+ String ":" rest).
  { destruct (getScheme_loop_spec raw raw "" sch rest0 eq_refl Hg) as [-> | ->];
      [by left|right; by eexists]. }
  split; [|exact Hs].
  repeat case_match; simplify_eq; try done; by apply setPath_scheme in H.
Qed.

Lemma Parse_scheme (s : string) (u : URL) :
  Parse s = Ok u ->
  exists sch, Scheme u = ToLower sch /\ (sch = "" \/ exists rest, s = sch +:+ String ":" rest).
Proof.
  unfold Parse. destruct (Cut s "#") as [[a frag] f] eqn:Hc. intros H.
  assert (Hs : exists t, s = a +:+ t).
  { destruct (Cut_spec _ _ _ _ _ Hc) as [[_ ->]|[_ [-> _]]]; eexists;
      [reflexivity|by rewrite append_nil_r]. }
  destruct Hs as [t ->].
  destruct (parse a) as [url|e] eqn:Hp; [|discriminate].
  destruct (parse_scheme _ _ Hp) as (sch & Hsch & Hpre).
  exists sch.
  assert (Hpre' : sch = "" \/ exists rest, a +:+ t = sch +:+ String ":" rest).
  { destruct Hpre as [->|[rest ->]]; [by left|right].
    exists (rest +:+ t). by rewrite append_assoc. }
  destruct (String.eqb frag "").
  - inversion H; subst. done.
  - destruct (setFragment url frag) as [u'|e] eqn:Hf; [|discriminate].
    inversion H; subst. apply setFragment_scheme in Hf. by rewrite Hf.
Qed.

Lemma FromString_ok_scheme (s : string) (r : PackageURL) :
  FromString s = Ret (r, None) -> exists u, Parse s = Ok u /\ Scheme u = "pkg".
Proof.
  unfold FromString, FromString_record. destruct (Parse s) as [u|e].
  - destruct (String.eqb (Scheme u) "pkg") eqn:E.
    + intros _. apply String.eqb_eq in E. eauto.
    + intros H. simpl in H. discriminate.
  - intros H. simpl in H. discriminate.
Qed.

Lemma ToLower_empty : ToLower "" = "".
Proof. reflexivity. Qed.

(** C8 (counterexample): the scheme comparison is not case-sensitive on
    the input, since [url.Parse] lower-cases the scheme; "PKG:t/n" parses
    without error. *)
Lemma C8_uppercase_scheme_accepted :
  FromString "PKG:t/n" = Ret (mkPURL "t" "" "n" "" ∅ "", None).
Proof. vm_compute. reflexivity. Qed.

(** C8 (amended): FromString returns a record without error only when the
    input starts with a scheme that lower-cases to "pkg" followed by ':';
    and whenever the input parses as a URL whose (lower-cased) scheme is not
    "pkg", FromString fails with the invalid-scheme error. *)
Theorem C8_scheme_pkg_case_insensitive :
  (forall (s : string) (r : PackageURL), FromString s = Ret (r, None) ->
     exists sch rest, s = sch +:+ String ":" rest /\ ToLower sch = "pkg") /\
  (forall (s : string) (u : URL), Parse s = Ok u -> Scheme u <> "pkg" ->
     FromString s = Ret (zeroPURL, Some (SchemeNotPkg (Scheme u)))).
Proof.
  split.
  - intros s r H. destruct (FromString_ok_scheme s r H) as (u & Hp & Hs).
    destruct (Parse_scheme s u Hp) as (sch & Hsch & Hpre).
    destruct Hpre as [Hemp|[rest Hrest]].
    + subst sch. rewrite ToLower_empty in Hsch. congruence.
    + exists sch, rest. split; [exact Hrest|congruence].
  - intros s u Hp Hne. unfold FromString, FromString_record. rewrite Hp.
    apply String.eqb_neq in Hne. rewrite Hne. reflexivity.
Qed.

Lemma C8_scheme_pkg_case_insensitive_witness :
  (exists sch rest, "PKG:t/n" = sch +:+ String ":" rest /\ ToLower sch = "pkg") /\
  FromString "http:x" = Ret (zeroPURL, Some (SchemeNotPkg "http")).
Proof.
  split.
  - apply (proj1 C8_scheme_pkg_case_insensitive "PKG:t/n" (mkPURL "t" "" "n" "" ∅ "")).
    vm_compute. reflexivity.
  - apply (proj2 C8_scheme_pkg_case_insensitive "http:x"
             (mkURL "http" "x" "" "" "" false false "" "" "")).
    + vm_compute. reflexivity.
    + simpl. discriminate.
Defined.


Lemma JoinPath_query_fragment (u : URL) (es : list string) :
  RawQuery (JoinPath u es) = RawQuery u /\ Fragment (JoinPath u es) = Fragment u.
Proof.
  unfold JoinPath. case_match; [|done].
  unfold setPath in *. case_match; simplify_eq. done.
Qed.

Lemma QueryEscape_empty : QueryEscape "" = "".
Proof. reflexivity. Qed.

(** C3 (counterexample): ToString keeps a qualifier whose value is empty
    and renders it as "k=". *)
Lemma C3_empty_value_rendered :
  ToString (mkPURL "npm" "" "pkg" "" {["k" := [""]]} "") = "pkg:npm/pkg?k=".
Proof. vm_compute. reflexivity. Qed.

Lemma Cut_app_found (s t a b : string) (c : ascii) :
  Cut s c = (a, b, true) -> Cut (s +:+ t) c = (a, b +:+ t, true).
Proof.
  revert a. induction s as [|x s IH]; intros a H; simpl in H; [discriminate|].
  rewrite append_cons. simpl. destruct (ascii_dec x c).
  - by inversion H.
  - destruct (Cut s c) as [[a' b'] f'] eqn:E. inversion H; subst.
    by rewrite (IH a' eq_refl).
Qed.

Lemma Cut_app_missing (s t a b : string) (c : ascii) :
  Cut s c = (a, b, false) -> Cut (s +:+ String c t) c = (s, t, true).
Proof.
  revert a. induction s as [|x s IH]; intros a H; simpl in H.
  - simpl. by destruct (ascii_dec c c).
  - rewrite append_cons. simpl. destruct (ascii_dec x c); [discriminate|].
    destruct (Cut s c) as [[a' b'] f'] eqn:E. inversion H; subst.
    by rewrite (IH a' eq_refl).
Qed.

Lemma Cut_length (s a b : string) (c : ascii) (f : bool) :
  s <> "" -> Cut s c = (a, b, f) -> (String.length b < String.length s)%nat.
Proof.
  intros Hs H. destruct (Cut_spec _ _ _ _ _ H) as [[_ ->]|[_ [-> ->]]].
  - rewrite length_append. simpl. lia.
  - destruct a; [done|]. simpl. lia.
Qed.

Lemma parseQualifiers_loop_empty (n : nat) (q : Qualifiers) :
  parseQualifiers_loop n q "" = Ret (Ok q).
Proof. by destruct n. Qed.

Lemma parseQualifiers_loop_fuel (n m : nat) (q : Qualifiers) (s : string) :
  (String.length s <= n)%nat -> (String.length s <= m)%nat ->
  parseQualifiers_loop n q s = parseQualifiers_loop m q s.
Proof.
  revert m q s. induction n as [|n IH]; intros m q s Hn Hm.
  - destruct s; [|simpl in Hn; lia]. by rewrite !parseQualifiers_loop_empty.
  - destruct m as [|m].
    { destruct s; [|simpl in Hm; lia]. by rewrite !parseQualifiers_loop_empty. }
    cbn [parseQualifiers_loop].
    destruct (String.eqb s "") eqn:Hs; [done|]. apply String.eqb_neq in Hs.
    destruct (Cut s amp) as [[key rest] f] eqn:Hc.
    pose proof (Cut_length _ _ _ _ _ Hs Hc) as Hl.
    repeat (case_match; try done); unfold go_bind; repeat (case_match; try done);
      apply IH; lia.
Qed.

Lemma parseQualifiers_loop_acc (n : nat) (acc q l : Qualifiers) (s : string) :
  parseQualifiers_loop n q s = Ret (Ok l) ->
  parseQualifiers_loop n (acc ++ q)%list s = Ret (Ok (acc ++ l)%list).
Proof.
  revert q s. induction n as [|n IH]; intros q s H; cbn [parseQualifiers_loop] in *.
  - by simplify_eq.
  - destruct (String.eqb s ""); [by simplify_eq|].
    destruct (Cut s amp) as [[key rest] f].
    unfold go_bind in *. repeat (case_match; simplify_eq; try done);
      rewrite <-?app_assoc; by apply IH.
Qed.

Lemma parseQualifiers_loop_amp (n : nat) (q : Qualifiers) (s : string) :
  parseQualifiers_loop (S n) q (String amp s) = parseQualifiers_loop n q s.
Proof. reflexivity. Qed.

Lemma parseQualifiers_loop_app (n : nat) (s1 s2 : string) (q l1 : Qualifiers) (m : nat) :
  (String.length s1 <= n)%nat -> parseQualifiers_loop n q s1 = Ret (Ok l1) ->
  (String.length (s1 +:+ String amp s2) <= m)%nat ->
  parseQualifiers_loop m q (s1 +:+ String amp s2) = parseQualifiers_loop m l1 s2.
Proof.
  revert s1 q m. induction n as [|n IH]; intros s1 q m Hn H Hm;
    rewrite length_append in Hm; simpl in Hm;
    (destruct m as [|m]; [lia|]);
    rewrite <- (parseQualifiers_loop_fuel m (S m) l1 s2) by lia.
  - destruct s1; [|simpl in Hn; lia].
    rewrite parseQualifiers_loop_empty in H. simplify_eq.
    apply parseQualifiers_loop_amp.
  - destruct (String.eqb s1 "") eqn:Hs.
    { apply String.eqb_eq in Hs. subst s1.
      rewrite parseQualifiers_loop_empty in H. simplify_eq.
      apply parseQualifiers_loop_amp. }
    apply String.eqb_neq in Hs.
    destruct (Cut s1 amp) as [[key rest] f] eqn:Hc.
    pose proof (Cut_length _ _ _ _ _ Hs Hc) as Hl.
    destruct f.
    + pose proof (Cut_app_found _ (String amp s2) _ _ _ Hc) as Hc'.
      destruct (Cut_spec _ _ _ _ _ Hc) as [[_ Hs1]|[? _]]; [|discriminate].
      rewrite Hs1, length_append in Hm. simpl in Hm.
      assert (Hne : String.eqb (s1 +:+ String amp s2) "" = false).
      { destruct s1; [done|reflexivity]. }
      cbn [parseQualifiers_loop] in H |- *.
      rewrite Hne, Hc'. rewrite (proj2 (String.eqb_neq _ _) Hs), Hc in H.
      unfold go_bind in *. repeat (case_match; simplify_eq; try done);
        (eapply IH; [|exact H|]; rewrite ?length_append in *; simpl in *; lia).
    + pose proof (Cut_app_missing _ s2 _ _ _ Hc) as Hc'.
      destruct (Cut_spec _ _ _ _ _ Hc) as [[? _]|[_ [<- ->]]]; [discriminate|].
      assert (Hne : String.eqb (s1 +:+ String amp s2) "" = false).
      { destruct s1; [done|reflexivity]. }
      cbn [parseQualifiers_loop] in H |- *.
      rewrite Hne, Hc'. rewrite (proj2 (String.eqb_neq _ _) Hs), Hc in H.
      unfold go_bind in *. repeat (case_match; simplify_eq; try done);
        rewrite parseQualifiers_loop_empty in H; by simplify_eq.
Qed.

(** C7 (counterexample): a repeated qualifier key is not an error.  In
    packageurl.go both values are kept under the key; the slice-based
    [parseQualifiers] keeps both pairs, in order. *)
Lemma C7_duplicate_key_accepted :
  FromString "pkg:t/n?a=1&a=2" = Ret (mkPURL "t" "" "n" "" {["a" := ["1"; "2"]]} "", None) /\
  parseQualifiers "a=1&a=2" = Ret (Ok [mkQualifier "a" "1"; mkQualifier "a" "2"]).
Proof. split; vm_compute; reflexivity. Qed.

(** [parseQualifiers] performs no duplicate-key check; the qualifiers of
    two '&'-joined queries that parse are the concatenation of the
    qualifiers of each, whatever keys they share. *)
Lemma parseQualifiers_concat (q1 q2 : string) (l1 l2 : Qualifiers) :
  parseQualifiers q1 = Ret (Ok l1) -> parseQualifiers q2 = Ret (Ok l2) ->
  parseQualifiers (q1 +:+ String "&" q2) = Ret (Ok (l1 ++ l2)%list).
Proof.
  unfold parseQualifiers. intros H1 H2. change (String "&" q2) with (String amp q2).
  rewrite (parseQualifiers_loop_app (String.length q1) q1 q2 [] l1) by (done || lia).
  rewrite (parseQualifiers_loop_fuel _ (String.length q2))
    by (rewrite ?length_append; simpl; lia).
  pose proof (parseQualifiers_loop_acc _ l1 [] l2 q2 H2) as H.
  rewrite app_nil_r in H. exact H.
Qed.

Lemma prefix_spec (sub s : string) :
  String.prefix sub s = true -> exists b, s = sub +:+ b.
Proof.
  revert s. induction sub as [|x sub IH]; intros s H.
  - by exists s.
  - destruct s as [|y s]; [discriminate|]. simpl in H.
    destruct (ascii_dec x y) as [->|]; [|discriminate].
    destruct (IH s H) as [b ->]. exists b. by rewrite append_cons.
Qed.

Lemma prefix_app (sub b : string) : String.prefix sub (sub +:+ b) = true.
Proof.
  induction sub as [|x sub IH]; [by destruct b|].
  rewrite append_cons. simpl. by destruct (ascii_dec x x).
Qed.

Lemma Index_unfold (s sub : string) :
  Index s sub = if String.prefix sub s then Some 0 else
                match s with
                | EmptyString => None
                | String _ s' => option_map S (Index s' sub)
                end.
Proof. by destruct s. Qed.

(** [strings.Contains] is the substring relation. *)
Lemma Contains_spec (s sub : string) : Contains s sub = true <-> has_substring s sub.
Proof.
  unfold Contains, has_substring. split.
  - revert sub. induction s as [|c s IH]; intros sub H; rewrite Index_unfold in H;
      (destruct (String.prefix sub _) eqn:Hp;
       [destruct (prefix_spec _ _ Hp) as [b Hb]; exists "", b;
        rewrite append_nil_l; exact Hb|]).
    + simpl in H. discriminate.
    + destruct (Index s sub) eqn:Hi; simpl in H; [|discriminate].
      destruct (IH sub) as (a & b & ->); [by rewrite Hi|].
      exists (String c a), b. by rewrite append_cons.
  - intros (a & b & ->). induction a as [|c a IH].
    + rewrite append_nil_l, Index_unfold, prefix_app. done.
    + rewrite append_cons, Index_unfold.
      destruct (String.prefix sub (String c (a +:+ sub +:+ b))); [done|].
      simpl. by destruct (Index (a +:+ sub +:+ b) sub).
Qed.

Lemma typeAdjustName_mlflow (name : string) (q : Values) :
  typeAdjustName "mlflow" name q = adjustMlflowName name q.
Proof. reflexivity. Qed.

(** C6: for the mlflow type the name adjustment is: unchanged when the
    "repository_url" qualifier is absent; unchanged when its value contains
    "azureml"; lower-cased when it does not contain "azureml" but contains
    "databricks"; unchanged otherwise. *)
Theorem C6_mlflow_name_adjustment (name : string) (q : Values) :
  let v := Values_Get q "repository_url" in
  (q !! "repository_url" = None -> typeAdjustName "mlflow" name q = name) /\
  (has_substring v "azureml" -> typeAdjustName "mlflow" name q = name) /\
  (~ has_substring v "azureml" -> has_substring v "databricks" ->
     typeAdjustName "mlflow" name q = ToLower name) /\
  (~ has_substring v "azureml" -> ~ has_substring v "databricks" ->
     typeAdjustName "mlflow" name q = name).
Proof.
  intros v. rewrite !typeAdjustName_mlflow. unfold adjustMlflowName. fold v.
  rewrite <- !Contains_spec.
  split; [|split; [|split]].
  - intros Hq. subst v. unfold Values_Get. by rewrite Hq.
  - intros Ha. destruct (String.eqb v ""); [done|]. by rewrite Ha.
  - intros Ha Hd. destruct (String.eqb v "") eqn:Hv.
    + apply String.eqb_eq in Hv. rewrite Hv in Hd. discriminate.
    + apply not_true_is_false in Ha. by rewrite Ha, Hd.
  - intros Ha Hd. apply not_true_is_false in Ha, Hd.
    destruct (String.eqb v ""); [done|]. by rewrite Ha, Hd.
Qed.

Lemma C6_mlflow_name_adjustment_witness :
  typeAdjustName "mlflow" "Model" {["repository_url" := ["https://adb-1.azuredatabricks.net"]]}
    = ToLower "Model" /\
  typeAdjustName "mlflow" "Model" ∅ = "Model".
Proof.
  split.
  - apply (proj1 (proj2 (proj2
      (C6_mlflow_name_adjustment "Model"
         {["repository_url" := ["https://adb-1.azuredatabricks.net"]]})))).
    + rewrite <- Contains_spec. vm_compute. discriminate.
    + apply Contains_spec. vm_compute. reflexivity.
  - apply (proj1 (C6_mlflow_name_adjustment "Model" ∅)). reflexivity.
Defined.

(** [validCustomRules] returns nil exactly when the per-type rules hold. *)
Lemma validCustomRules_spec (p : PackageURL) :
  validCustomRules p = None <-> rules_hold p.
Proof.
  unfold validCustomRules, rules_hold, Values_Has, TypeConan, TypeSwift, TypeCran.
  cbv zeta.
  destruct (String.eqb (Type_ p) "conan").
  - destruct (String.eqb (Namespace p) "") eqn:Hn;
      [apply String.eqb_eq in Hn|apply String.eqb_neq in Hn];
      case_bool_decide as Hc;
      (destruct (String.eqb (Values_Get (Purl.Qualifiers p) "channel") "") eqn:Hg;
       [apply String.eqb_eq in Hg|apply String.eqb_neq in Hg]);
      simpl; naive_solver.
  - destruct (String.eqb (Type_ p) "swift").
    + destruct (String.eqb (Namespace p) "") eqn:Hn;
        [apply String.eqb_eq in Hn|apply String.eqb_neq in Hn];
      (destruct (String.eqb (Version p) "") eqn:Hv;
        [apply String.eqb_eq in Hv|apply String.eqb_neq in Hv]);
        naive_solver.
    + destruct (String.eqb (Type_ p) "cran"); [|done].
      destruct (String.eqb (Version p) "") eqn:Hv;
        [apply String.eqb_eq in Hv|apply String.eqb_neq in Hv]; naive_solver.
Qed.

(** C5: once the record [p] is built (after type adjustment), FromString
    returns it without error exactly when the per-type rules hold, and when
    they fail it returns [p] with the rule violation as its error. *)
Theorem C5_custom_rules_exact (s : string) (p : PackageURL) :
  FromString_record s = Ret (Ok p) ->
  (FromString s = Ret (p, None) <-> rules_hold p) /\
  (~ rules_hold p -> exists e, FromString s = Ret (p, Some e)).
Proof.
  intros H. unfold FromString. rewrite H. simpl. split.
  - rewrite <- validCustomRules_spec. split; [congruence|intros ->; done].
  - intros Hr. destruct (validCustomRules p) as [e|] eqn:Hv.
    + by exists e.
    + exfalso. apply Hr, validCustomRules_spec, Hv.
Qed.

Lemma C5_custom_rules_exact_witness :
  exists e, FromString "pkg:cran/name" = Ret (mkPURL "cran" "" "name" "" ∅ "", Some e).
Proof.
  assert (H : FromString_record "pkg:cran/name" = Ret (Ok (mkPURL "cran" "" "name" "" ∅ "")))
    by (vm_compute; reflexivity).
  apply (proj2 (C5_custom_rules_exact "pkg:cran/name" _ H)).
  unfold rules_hold. simpl. intros Hv. apply Hv. reflexivity.
Defined.

Lemma LastIndex_none (r : string) (c : ascii) :
  ContainsByte r c = false -> LastIndex r c = None.
Proof.
  induction r as [|d r IH]; intros H; [done|]. simpl in *.
  destruct (ascii_dec c d) as [|Hne]; [discriminate|].
  rewrite (IH H). destruct (ascii_dec d c); [congruence|done].
Qed.

Lemma LastIndex_found (a r : string) (c : ascii) :
  ContainsByte r c = false -> LastIndex (a +:+ String c r) c = Some (String.length a).
Proof.
  intros H. induction a as [|x a IH].
  - simpl. rewrite (LastIndex_none r c H). by destruct (ascii_dec c c).
  - rewrite append_cons. simpl. by rewrite IH.
Qed.

Lemma substring_all (r : string) : String.substring 0 (String.length r) r = r.
Proof. induction r as [|x r IH]; [done|]. simpl. by rewrite IH. Qed.

Lemma drop_app (a r : string) (c : ascii) :
  drop (S (String.length a)) (a +:+ String c r) = r.
Proof.
  unfold drop. rewrite length_append. simpl.
  replace (String.length a + S (String.length r) - S (String.length a))%nat
    with (String.length r) by lia.
  induction a as [|x a IH]; [apply substring_all|].
  rewrite append_cons. exact IH.
Qed.

(** [separateNamespaceNameVersion] read through the splits of the
    specification. *)
Lemma separateNamespaceNameVersion_split (path rest nmr : string) (nsr vr : option string) :
  namespace_split path nsr rest -> name_version_split rest nmr vr ->
  Purl.separateNamespaceNameVersion path =
  match decode_opt nsr with
  | Err e => Err (Wrap "error unescaping namespace" e)
  | Ok ns =>
      match decode_opt vr with
      | Err e => Err (Wrap "error unescaping version" e)
      | Ok v =>
          match PathUnescape nmr with
          | Err e => Err (Wrap "error unescaping name" e)
          | Ok n => if String.eqb n "" then Err MissingName else Ok (ns, n, v)
          end
      end
  end.
Proof.
  intros Hns Hnv. unfold Purl.separateNamespaceNameVersion.
  destruct Hns as [a r Hr|r Hr].
  - rewrite (LastIndex_found a r slash Hr), take_app, drop_app. cbn [decode_opt].
    destruct (PathUnescape a) as [ns|e]; [|done].
    destruct Hnv as [n v Hv|n Hn].
    + rewrite (LastIndex_found n v at_sign Hv), take_app, drop_app. done.
    + rewrite (LastIndex_none n at_sign Hn). done.
  - rewrite (LastIndex_none r slash Hr). cbn [decode_opt].
    destruct Hnv as [n v Hv|n Hn].
    + rewrite (LastIndex_found n v at_sign Hv), take_app, drop_app. done.
    + rewrite (LastIndex_none n at_sign Hn). done.
Qed.

(** C4: split the path at its last '/' into the raw namespace and the rest,
    and the rest at its last '@' into the raw name and version.  When the
    namespace (decoded as one string), the version and the name all
    percent-decode, the result is those decoded parts, or the missing-name
    error when the decoded name is empty; when one of them fails to decode,
    the result is an error. *)
Theorem C4_namespace_name_version (path rest nmr : string) (nsr vr : option string) :
  namespace_split path nsr rest -> name_version_split rest nmr vr ->
  (forall ns n v, decode_opt nsr = Ok ns -> decode_opt vr = Ok v -> PathUnescape nmr = Ok n ->
     Purl.separateNamespaceNameVersion path =
     if String.eqb n "" then Err MissingName else Ok (ns, n, v)) /\
  ((exists e, decode_opt nsr = Err e) \/ (exists e, decode_opt vr = Err e) \/
   (exists e, PathUnescape nmr = Err e) ->
     exists e, Purl.separateNamespaceNameVersion path = Err e).
Proof.
  intros Hns Hnv. rewrite (separateNamespaceNameVersion_split _ _ _ _ _ Hns Hnv).
  split.
  - intros ns n v H1 H2 H3. by rewrite H1, H2, H3.
  - intros Hd. destruct (decode_opt nsr) as [ns|e1]; [|by eexists].
    destruct (decode_opt vr) as [v|e2]; [|by eexists].
    destruct (PathUnescape nmr) as [n|e3]; [|by eexists].
    exfalso. destruct Hd as [[e He]|[[e He]|[e He]]]; discriminate.
Qed.

Lemma C4_namespace_name_version_witness :
  Purl.separateNamespaceNameVersion
    ("a%2Fb" +:+ String slash ("n@x" +:+ String at_sign "1%2E0")) = Ok ("a/b", "n@x", "1.0").
Proof.
  rewrite (proj1 (C4_namespace_name_version _ _ "n@x" (Some "a%2Fb") (Some "1%2E0")
                    (ns_split_found "a%2Fb" ("n@x" +:+ String at_sign "1%2E0") eq_refl)
                    (nv_split_found "n@x" "1%2E0" eq_refl))
                 "a/b" "n@x" "1.0"); vm_compute; reflexivity.
Defined.

(** The slice-based variant splits the name and version at the first '@'
    and drops what follows a second one. *)
Lemma Ordered_separate_first_at :
  Ordered.separateNamespaceNameVersion "ns/n@a@b" = Ok ("ns", "n", "a") /\
  Purl.separateNamespaceNameVersion "ns/n@a@b" = Ok ("ns", "n@a", "b").
Proof. split; vm_compute; reflexivity. Qed.
Lemma Map_list_to_map (qq : Qualifiers) :
  Map qq = list_to_map (rev (map toKV qq)).
Proof.
  unfold Map. induction qq as [|q qq IH] using rev_ind; [done|].
  rewrite fold_left_app, IH, map_app, rev_app_distr. done.
Qed.

Lemma toKV_mk (kvs : list (string * string)) :
  map toKV (map (fun kv => mkQualifier kv.1 kv.2) kvs) = kvs.
Proof. induction kvs as [|[k v] kvs IH]; simpl; [done|]. by rewrite IH. Qed.

Lemma QualifiersFromMap_iter_perm (kvs : list (string * string)) :
  map toKV (QualifiersFromMap_iter kvs) ≡ₚ kvs.
Proof.
  unfold QualifiersFromMap_iter.
  etrans; [apply Permutation_map, merge_sort_Permutation|]. by rewrite toKV_mk.
Qed.

Lemma fmap_fst_map (l : list (string * string)) : l.*1 = map fst l.
Proof. induction l as [|x l IH]; [done|]. rewrite fmap_cons, IH. done. Qed.

Lemma StronglySorted_key_lt (l : Qualifiers) :
  StronglySorted key_le l -> NoDup (map Key l) -> StronglySorted key_lt l.
Proof.
  induction 1 as [|a l Hs IH Hf]; intros Hnd; constructor.
  - apply IH. by inversion Hnd.
  - inversion Hnd as [|? ? Hnin Hnd']; subst.
    apply List.Forall_forall. intros b Hb. split.
    + by apply (proj1 (List.Forall_forall _ _) Hf).
    + intros Heq. apply Hnin. rewrite Heq. apply list_elem_of_In. by apply in_map.
Qed.

Lemma QualifiersFromMap_iter_keys (mm : gmap string string) (kvs : list (string * string)) :
  kvs ≡ₚ map_to_list mm -> NoDup (map Key (QualifiersFromMap_iter kvs)).
Proof.
  intros Hp.
  replace (map Key (QualifiersFromMap_iter kvs))
    with (map fst (map toKV (QualifiersFromMap_iter kvs))) by (rewrite map_map; done).
  rewrite <- fmap_fst_map, QualifiersFromMap_iter_perm, Hp.
  apply NoDup_fst_map_to_list.
Qed.

Lemma QualifiersFromMap_iter_elem (mm : gmap string string) (kvs : list (string * string))
    (x : Qualifier) :
  kvs ≡ₚ map_to_list mm -> x ∈ QualifiersFromMap_iter kvs -> mm !! Key x = Some (Value x).
Proof.
  intros Hp Hx. apply elem_of_map_to_list. rewrite <- Hp, <- QualifiersFromMap_iter_perm.
  change (Key x, Value x) with (toKV x).
  apply list_elem_of_In, in_map, list_elem_of_In, Hx.
Qed.

(** C10: for every map [mm] and every iteration order [kvs] of it,
    [QualifiersFromMap] followed by [Map] gives back [mm], its entries are in
    strictly increasing key order, and they do not depend on the iteration
    order. *)
Theorem C10_qualifiers_map_roundtrip (mm : gmap string string) (kvs : list (string * string)) :
  kvs ≡ₚ map_to_list mm ->
  Map (QualifiersFromMap_iter kvs) = mm /\
  StronglySorted key_lt (QualifiersFromMap_iter kvs) /\
  QualifiersFromMap_iter kvs = QualifiersFromMap mm.
Proof.
  intros Hp. split; [|split].
  - rewrite Map_list_to_map.
    assert (Hr : rev (map toKV (QualifiersFromMap_iter kvs)) ≡ₚ map_to_list mm).
    { by rewrite <- Permutation_rev, QualifiersFromMap_iter_perm. }
    rewrite (list_to_map_proper _ (map_to_list mm)); [apply list_to_map_to_list| |done].
    rewrite Hr. apply NoDup_fst_map_to_list.
  - apply StronglySorted_key_lt.
    + apply StronglySorted_merge_sort; apply _.
    + by apply (QualifiersFromMap_iter_keys mm).
  - unfold QualifiersFromMap.
    apply (StronglySorted_unique_strong key_le).
    + intros x1 x2 Hx1 Hx2 H12 H21.
      assert (Hk : Key x1 = Key x2) by (by apply (anti_symm String.le)).
      pose proof (QualifiersFromMap_iter_elem mm _ x1 Hp Hx1) as E1.
      pose proof (QualifiersFromMap_iter_elem mm _ x2 (reflexivity _) Hx2) as E2.
      destruct x1, x2. simpl in *. subst. congruence.
    + apply StronglySorted_merge_sort; apply _.
    + apply StronglySorted_merge_sort; apply _.
    + unfold QualifiersFromMap_iter.
      rewrite !merge_sort_Permutation. by rewrite Hp.
Qed.

Lemma C10_qualifiers_map_roundtrip_witness :
  Map (QualifiersFromMap_iter [("os", "linux"); ("arch", "amd64")]) =
    ({["os" := "linux"; "arch" := "amd64"]} : gmap string string) /\
  StronglySorted key_lt (QualifiersFromMap_iter [("os", "linux"); ("arch", "amd64")]) /\
  QualifiersFromMap_iter [("os", "linux"); ("arch", "amd64")] =
    QualifiersFromMap {["os" := "linux"; "arch" := "amd64"]}.
Proof.
  apply C10_qualifiers_map_roundtrip.
  apply (bool_decide_unpack _). vm_compute. reflexivity.
Defined.

(* ------------------------------------------------------------------ *)
(** ** Further properties of the code *)

Lemma escape_step (m : encoding) (c : ascii) (s : string) :
  m <> encodeHost -> m <> encodeZone ->
  unescape_check (escape (String c s) m) m = unescape_check (escape s m) m /\
  unescape_decode (escape (String c s) m) m = String c (unescape_decode (escape s m) m).
Proof.
  intros Hh Hz.
  destruct m; try congruence; clear Hh Hz;
  destruct c as [[] [] [] [] [] [] [] []]; split; reflexivity.
Qed.

Lemma unescape_escape (m : encoding) (s : string) :
  m <> encodeHost -> m <> encodeZone -> unescape (escape s m) m = Ok s.
Proof.
  intros Hh Hz. unfold unescape.
  assert (unescape_check (escape s m) m = None /\
          unescape_decode (escape s m) m = s) as [-> ->]; [|done].
  induction s as [|c s [IH1 IH2]]; [done|].
  destruct (escape_step m c s Hh Hz) as [-> ->]. by rewrite IH1, IH2.
Qed.

(** Extra: [url.PathUnescape] undoes [url.PathEscape] (used by [ToString]
    and [separateNamespaceNameVersion] on names), and [url.QueryUnescape]
    undoes [url.QueryEscape] (used by [Values.Encode] and [ParseQuery] on
    qualifiers), for every byte string. *)
Theorem escape_roundtrip (s : string) :
  PathUnescape (PathEscape s) = Ok s /\ QueryUnescape (QueryEscape s) = Ok s.
Proof. split; apply unescape_escape; discriminate. Qed.

Lemma ContainsByte_app (a b : string) (c : ascii) :
  ContainsByte (a +:+ b) c = ContainsByte a c || ContainsByte b c.
Proof.
  induction a as [|x a IH]; [done|]. rewrite append_cons. simpl.
  by destruct (ascii_dec c x).
Qed.

Lemma Cut_none (s : string) (c : ascii) :
  ContainsByte s c = false -> Cut s c = (s, "", false).
Proof.
  induction s as [|x s IH]; [done|]. simpl.
  destruct (ascii_dec c x) as [->|Hne]; [discriminate|].
  destruct (ascii_dec x c) as [->|_]; [congruence|].
  intros H. by rewrite (IH H).
Qed.

Lemma ContainsByte_substring (a b : string) (c : ascii) :
  ContainsByte (a +:+ String c b) c = true.
Proof.
  rewrite ContainsByte_app. simpl. destruct (ascii_dec c c); [|done].
  by destruct (ContainsByte a c).
Qed.

Lemma Contains_byte (s : string) (c : ascii) :
  ContainsByte s c = false -> Contains s (String c "") = false.
Proof.
  intros H. destruct (Contains s (String c "")) eqn:E; [|done].
  apply Contains_spec in E as (a & b & ->).
  rewrite append_cons, append_nil_l, ContainsByte_substring in H. discriminate.
Qed.

Lemma all_key_chars_byte (s : string) (x : ascii) :
  all_key_chars s = true -> key_char x = false -> ContainsByte s x = false.
Proof.
  induction s as [|d s IH]; [done|]. simpl. intros H Hx.
  apply andb_prop in H as [Hd Hs].
  destruct (ascii_dec x d) as [->|]; [congruence|]. by apply IH.
Qed.

Lemma validQualifierKey_chars (k : string) :
  validQualifierKey k = true -> all_key_chars k = true.
Proof.
  destruct k as [|c k]; [done|]. simpl. intros H.
  apply andb_prop in H as [Hc Hk]. unfold key_char. by rewrite Hc, orb_true_r.
Qed.

Lemma key_char_step (c : ascii) (t : string) (m : encoding) :
  key_char c = true -> m <> encodeHost -> m <> encodeZone ->
  unescape_check (String c t) m = unescape_check t m /\
  unescape_decode (String c t) m = String c (unescape_decode t m).
Proof.
  intros Hc Hh Hz.
  destruct m; try congruence; clear Hh Hz;
  destruct c as [[] [] [] [] [] [] [] []]; try (split; reflexivity);
  vm_compute in Hc; discriminate.
Qed.

Lemma unescape_key (k : string) (m : encoding) :
  all_key_chars k = true -> m <> encodeHost -> m <> encodeZone ->
  unescape k m = Ok k.
Proof.
  intros Hk Hh Hz. unfold unescape.
  assert (unescape_check k m = None /\ unescape_decode k m = k) as [-> ->]; [|done].
  induction k as [|c k IH]; [done|]. simpl in Hk. apply andb_prop in Hk as [Hc Hk].
  destruct (key_char_step c k m Hc Hh Hz) as [-> ->].
  destruct (IH Hk) as [-> ->]. done.
Qed.

Lemma PathEscape_step (c : ascii) (s : string) (x : ascii) :
  x = ";"%char \/ x = "&"%char ->
  ContainsByte (PathEscape (String c s)) x =
    (if ascii_dec x c then Ascii.eqb x "&"%char else false) || ContainsByte (PathEscape s) x.
Proof.
  unfold PathEscape. intros [-> | ->];
  destruct c as [[] [] [] [] [] [] [] []]; reflexivity.
Qed.

Lemma PathEscape_semicolon (s : string) : ContainsByte (PathEscape s) ";" = false.
Proof.
  induction s as [|c s IH]; [done|].
  rewrite PathEscape_step by auto. rewrite IH.
  by destruct (ascii_dec ";" c).
Qed.

Lemma PathEscape_amp (s : string) :
  ContainsByte (PathEscape s) "&" = ContainsByte s "&".
Proof.
  induction s as [|c s IH]; [done|].
  rewrite PathEscape_step by auto. rewrite IH. cbn [ContainsByte].
  by destruct (ascii_dec "&" c).
Qed.

Lemma path_query_step (c : ascii) (s : string) :
  c <> "+"%char ->
  unescape_check (escape (String c s) encodePathSegment) encodeQueryComponent =
    unescape_check (escape s encodePathSegment) encodeQueryComponent /\
  unescape_decode (escape (String c s) encodePathSegment) encodeQueryComponent =
    String c (unescape_decode (escape s encodePathSegment) encodeQueryComponent).
Proof.
  intros Hc.
  destruct c as [[] [] [] [] [] [] [] []]; (split; [reflexivity|]);
    try reflexivity; exfalso; apply Hc; reflexivity.
Qed.

Lemma QueryUnescape_PathEscape (v : string) :
  ContainsByte v "+" = false -> QueryUnescape (PathEscape v) = Ok v.
Proof.
  intros Hv. unfold QueryUnescape, PathEscape, unescape.
  assert (unescape_check (escape v encodePathSegment) encodeQueryComponent = None /\
          unescape_decode (escape v encodePathSegment) encodeQueryComponent = v)
    as [-> ->]; [|done].
  induction v as [|c v IH]; [done|]. cbn [ContainsByte] in Hv.
  destruct (ascii_dec "+" c) as [|Hc]; [discriminate|].
  destruct (path_query_step c v (not_eq_sym Hc)) as [-> ->].
  destruct (IH Hv) as [-> ->]. done.
Qed.

Lemma lower_not_upper (c : ascii) : is_upper_letter c = false -> lower c = c.
Proof. unfold lower, is_upper_letter. by intros ->. Qed.

Lemma Qualifier_String_parse (q : Qualifier) (n : nat) :
  validQualifierKey (Key q) = true /\ ToLower (Key q) = Key q /\
  (exists c r, Value q = String c r /\ is_upper_letter c = false /\ (code c < 128)%N) /\
  ContainsByte (Value q) "&" = false /\ ContainsByte (Value q) "+" = false ->
  (String.length (Qualifier_String q) <= n)%nat ->
  parseQualifiers_loop n [] (Qualifier_String q) = Ret (Ok [q]).
Proof.
  intros (Hk & Hl & (c & r & Hv & Hu & Ha0) & Ha & Hp) Hn.
  pose proof (validQualifierKey_chars _ Hk) as Hkc.
  destruct n as [|n].
  { unfold Qualifier_String in Hn. rewrite !length_append in Hn. simpl in Hn. lia. }
  cbn [parseQualifiers_loop].
  assert (Hne : String.eqb (Qualifier_String q) "" = false).
  { unfold Qualifier_String. by destruct (Key q). }
  rewrite Hne.
  rewrite (Cut_none (Qualifier_String q) amp).
  2:{ unfold Qualifier_String. rewrite !ContainsByte_app, PathEscape_amp, Ha.
      rewrite (all_key_chars_byte _ amp Hkc) by reflexivity. done. }
  rewrite Contains_byte.
  2:{ unfold Qualifier_String. rewrite !ContainsByte_app, PathEscape_semicolon.
      rewrite (all_key_chars_byte _ ";" Hkc) by reflexivity. done. }
  rewrite Hne. unfold Qualifier_String.
  change ("=" +:+ PathEscape (Value q)) with (String "=" (PathEscape (Value q))).
  rewrite (Cut_app_missing (Key q) (PathEscape (Value q)) (Key q) "" "=").
  2:{ apply Cut_none, all_key_chars_byte; [exact Hkc|reflexivity]. }
  unfold QueryUnescape at 1. rewrite unescape_key by (done || discriminate).
  rewrite Hk. cbn -[QueryUnescape]. rewrite QueryUnescape_PathEscape by exact Hp.
  rewrite Hl. destruct q as [k v]. cbn [Key Value] in *. subst v.
  cbn [slice_to slice_from go_bind String.length Nat.leb].
  rewrite parseQualifiers_loop_empty.
  unfold take, drop. cbn [String.length String.substring Nat.sub].
  replace (String.substring 0 0 r) with "" by (by destruct r).
  rewrite Nat.sub_0_r, substring_all.
  rewrite ToLower_first by assumption. rewrite append_cons, append_nil_l. done.
Qed.

(** Extra: [parseQualifiers] reads back the output of [Qualifiers.String]
    when every key is a valid lower-case qualifier key and every value is
    non-empty, starts with an ASCII byte that is not an upper-case letter
    and contains neither '&' nor '+'. *)
Theorem Qualifiers_String_parse (l : Qualifiers) :
  Forall (fun q =>
    validQualifierKey (Key q) = true /\ ToLower (Key q) = Key q /\
    (exists c r, Value q = String c r /\ is_upper_letter c = false /\ (code c < 128)%N) /\
    ContainsByte (Value q) "&" = false /\ ContainsByte (Value q) "+" = false) l ->
  parseQualifiers (Qualifiers_String l) = Ret (Ok l).
Proof.
  unfold parseQualifiers. induction l as [|q l IH]; intros HF; [reflexivity|].
  apply Forall_cons in HF as [Hq HF].
  destruct l as [|q' l].
  { change (Qualifiers_String [q]) with (Qualifier_String q).
    apply Qualifier_String_parse; [exact Hq|lia]. }
  change (Qualifiers_String (q :: q' :: l))
    with (Qualifier_String q +:+ String amp (Qualifiers_String (q' :: l))).
  rewrite (parseQualifiers_loop_app (String.length (Qualifier_String q)) _ _ [] [q])
    by (apply Qualifier_String_parse || idtac; (done || lia)).
  rewrite (parseQualifiers_loop_fuel _ (String.length (Qualifiers_String (q' :: l))))
    by (rewrite ?length_append; simpl; lia).
  apply (parseQualifiers_loop_acc _ [q] [] (q' :: l)). by apply IH.
Qed.

Lemma Qualifiers_String_parse_witness :
  parseQualifiers (Qualifiers_String [mkQualifier "arch" "x86_64"; mkQualifier "os" "linux%2"]) =
  Ret (Ok [mkQualifier "arch" "x86_64"; mkQualifier "os" "linux%2"]).
Proof.
  apply Qualifiers_String_parse.
  constructor; [|constructor; [|constructor]];
    (split; [reflexivity|]); (split; [reflexivity|]);
    (split; [eexists _, _; split; [reflexivity|]; split; [reflexivity|];
             vm_compute; reflexivity|]);
    split; reflexivity.
Defined.

Lemma parseQuery_loop_empty (n : nat) (m : Values) (err : option error) :
  parseQuery_loop n m err "" = (m, err).
Proof. by destruct n. Qed.

Lemma parseQuery_loop_fuel (n n' : nat) (m : Values) (err : option error) (s : string) :
  (String.length s <= n)%nat -> (String.length s <= n')%nat ->
  parseQuery_loop n m err s = parseQuery_loop n' m err s.
Proof.
  revert n' m err s. induction n as [|n IH]; intros n' m err s Hn Hm.
  - destruct s; [|simpl in Hn; lia]. by rewrite !parseQuery_loop_empty.
  - destruct n' as [|n'].
    { destruct s; [|simpl in Hm; lia]. by rewrite !parseQuery_loop_empty. }
    cbn [parseQuery_loop].
    destruct (String.eqb s "") eqn:Hs; [done|]. apply String.eqb_neq in Hs.
    destruct (Cut s amp) as [[key rest] f] eqn:Hc.
    pose proof (Cut_length _ _ _ _ _ Hs Hc) as Hl.
    repeat (case_match; try done); apply IH; lia.
Qed.

Lemma QueryEscape_step (c : ascii) (s : string) (x : ascii) :
  x = ";"%char \/ x = "&"%char \/ x = "="%char ->
  ContainsByte (QueryEscape (String c s)) x = ContainsByte (QueryEscape s) x.
Proof.
  unfold QueryEscape. intros [-> | [-> | ->]];
  destruct c as [[] [] [] [] [] [] [] []]; reflexivity.
Qed.

Lemma QueryEscape_no_sep (s : string) (x : ascii) :
  x = ";"%char \/ x = "&"%char \/ x = "="%char ->
  ContainsByte (QueryEscape s) x = false.
Proof.
  intros Hx. induction s as [|c s IH]; [done|]. by rewrite QueryEscape_step.
Qed.

(** One encoded pair [QueryEscape(k) + "=" + QueryEscape(x)]. *)
Lemma parseQuery_loop_pair (n : nat) (m : Values) (err : option error)
    (k x rest : string) (f : bool) :
  parseQuery_loop (S n) m err
    (QueryEscape k +:+ "=" +:+ QueryEscape x +:+ (if f then String amp rest else "")) =
  parseQuery_loop n (Values_Add m k x) err (if f then rest else "").
Proof.
  set (e := QueryEscape k +:+ "=" +:+ QueryEscape x).
  assert (He : ContainsByte e amp = false /\ ContainsByte e ";" = false).
  { unfold e. rewrite !ContainsByte_app, !QueryEscape_no_sep by auto. done. }
  assert (Hne : forall t, String.eqb (e +:+ t) "" = false).
  { intros t. unfold e. by destruct (QueryEscape k). }
  replace (QueryEscape k +:+ "=" +:+ QueryEscape x +:+ (if f then String amp rest else ""))
    with (e +:+ (if f then String amp rest else "")) by (unfold e; by rewrite !append_assoc).
  cbn [parseQuery_loop]. rewrite Hne.
  assert (Hc : Cut (e +:+ (if f then String amp rest else "")) amp =
               (e, if f then rest else "", f)).
  { destruct f.
    - apply (Cut_app_missing _ _ e ""), Cut_none. apply He.
    - rewrite append_nil_r. apply Cut_none. apply He. }
  rewrite Hc, Contains_byte by apply He.
  specialize (Hne ""). rewrite append_nil_r in Hne. rewrite Hne.
  unfold e. change ("=" +:+ QueryEscape x) with (String "=" (QueryEscape x)).
  rewrite (Cut_app_missing _ _ (QueryEscape k) "").
  2:{ apply Cut_none, QueryEscape_no_sep. auto. }
  unfold QueryUnescape, QueryEscape. rewrite !unescape_escape by discriminate. done.
Qed.

Lemma parseQuery_loop_pairs (P : list (string * string)) (n : nat) (m : Values)
    (err : option error) :
  (String.length (Join (map (fun p => QueryEscape p.1 +:+ "=" +:+ QueryEscape p.2) P) "&")
     <= n)%nat ->
  parseQuery_loop n m err
    (Join (map (fun p => QueryEscape p.1 +:+ "=" +:+ QueryEscape p.2) P) "&") =
  (fold_left (fun m p => Values_Add m p.1 p.2) P m, err).
Proof.
  revert n m. induction P as [|[k x] P IH]; intros n m Hn.
  { apply parseQuery_loop_empty. }
  destruct n as [|n].
  { destruct P; cbn [map Join fst snd] in Hn; rewrite !length_append in Hn; simpl in Hn; lia. }
  destruct P as [|p' P].
  - cbn [map Join fold_left fst snd] in *.
    pose proof (parseQuery_loop_pair n m err k x "" false) as H.
    rewrite append_nil_r in H. rewrite H. apply parseQuery_loop_empty.
  - change (Join (map (fun p => QueryEscape p.1 +:+ "=" +:+ QueryEscape p.2)
                      ((k, x) :: p' :: P)) "&")
      with ((QueryEscape k +:+ "=" +:+ QueryEscape x) +:+ String amp
              (Join (map (fun p => QueryEscape p.1 +:+ "=" +:+ QueryEscape p.2)
                      (p' :: P)) "&")) in *.
    rewrite !append_assoc in *.
    pose proof (parseQuery_loop_pair n m err k x
      (Join (map (fun p => QueryEscape p.1 +:+ "=" +:+ QueryEscape p.2) (p' :: P)) "&")
      true) as H.
    cbn iota in H. rewrite H. apply IH.
    rewrite !length_append in Hn. cbn [String.length] in Hn. lia.
Qed.

Lemma fold_Add_values (k : string) (xs : list string) (m : Values) :
  xs <> [] ->
  fold_left (fun m p => Values_Add m p.1 p.2) (map (pair k) xs) m =
  <[k := (default [] (m !! k) ++ xs)%list]> m.
Proof.
  revert m. induction xs as [|x xs IH]; intros m Hxs; [done|].
  destruct xs as [|x' xs]; [done|].
  change (map (pair k) (x :: x' :: xs)) with ((k, x) :: map (pair k) (x' :: xs)).
  cbn [fold_left fst snd]. rewrite IH by done.
  unfold Values_Add. rewrite lookup_insert_eq, insert_insert_eq. simpl.
  by rewrite <- app_assoc.
Qed.

Lemma fold_Add_keys (v : Values) (keys : list string) (m : Values) (k' : string) :
  NoDup keys -> (forall k, k ∈ keys -> m !! k = None) ->
  (forall k, k ∈ keys -> exists xs, v !! k = Some xs /\ xs <> []) ->
  fold_left (fun m p => Values_Add m p.1 p.2)
    (concat (map (fun k => map (pair k) (default [] (v !! k))) keys)) m !! k' =
  if decide (k' ∈ keys) then v !! k' else m !! k'.
Proof.
  revert m. induction keys as [|k keys IH]; intros m Hnd Hm Hv; [done|].
  apply NoDup_cons in Hnd as [Hk Hnd].
  destruct (Hv k) as (xs & Hvk & Hxs); [by left|].
  cbn [map concat]. rewrite fold_left_app, Hvk. simpl default.
  rewrite fold_Add_values by done. rewrite (Hm k) by (by left). simpl.
  rewrite IH; [| done | | by (intros; apply Hv; right)].
  - destruct (decide (k' ∈ keys)) as [Hin|Hin].
    + by rewrite decide_True by (by right).
    + destruct (decide (k' = k)) as [->|Hne].
      * rewrite decide_True by (by left). by rewrite lookup_insert_eq.
      * rewrite decide_False by set_solver. by rewrite lookup_insert_ne.
  - intros k'' Hk''. rewrite lookup_insert_ne by set_solver. apply Hm. by right.
Qed.

Lemma Encode_pairs (v : Values) :
  Encode v =
  Join (map (fun p => QueryEscape p.1 +:+ "=" +:+ QueryEscape p.2)
         (concat (map (fun k => map (pair k) (default [] (v !! k)))
                   (merge_sort String.le ((map_to_list v).*1))))) "&".
Proof.
  unfold Encode. f_equal.
  induction (merge_sort String.le ((map_to_list v).*1)) as [|k ks IH]; [done|].
  cbn [map concat]. rewrite map_app, IH, map_map. done.
Qed.

Lemma keys_of_map (v : Values) (k : string) :
  k ∈ merge_sort String.le ((map_to_list v).*1) <-> is_Some (v !! k).
Proof.
  rewrite merge_sort_Permutation, list_elem_of_fmap. split.
  - intros ([k0 xs] & -> & Hin). apply elem_of_map_to_list in Hin. by exists xs.
  - intros [xs Hxs]. exists (k, xs). split; [done|]. by apply elem_of_map_to_list.
Qed.

Lemma ParseQuery_Encode_values (v : Values) :
  (forall k xs, v !! k = Some xs -> xs <> []) -> ParseQuery (Encode v) = (v, None).
Proof.
  intros Hv. unfold ParseQuery. rewrite Encode_pairs.
  rewrite parseQuery_loop_pairs by lia. f_equal.
  apply map_eq. intros k'.
  rewrite fold_Add_keys.
  - destruct (decide _) as [Hin|Hin]; [done|].
    rewrite lookup_empty. symmetry. apply eq_None_not_Some.
    intros Hs. apply Hin. by apply keys_of_map.
  - rewrite merge_sort_Permutation. apply NoDup_fst_map_to_list.
  - intros. apply lookup_empty.
  - intros k Hk. apply keys_of_map in Hk as [xs Hxs]. exists xs. split; [done|].
    by apply (Hv k).
Qed.

Lemma Values_Get_Has (v : Values) (k : string) (c : ascii) (r : string) :
  Values_Get v k = String c r -> Values_Has v k = true.
Proof.
  unfold Values_Get, Values_Has. intros H. apply bool_decide_eq_true.
  destruct (v !! k) as [xs|]; [done|discriminate].
Qed.

Lemma getQualifiers_loop_normal (keys : list string) (v : Values) :
  (forall k, k ∈ keys -> validQualifierKey k = true /\ ToLower k = k /\
     exists c r, Values_Get v k = String c r /\ is_upper_letter c = false /\ (code c < 128)%N) ->
  getQualifiers_loop keys v = Ret (Ok v).
Proof.
  induction keys as [|k keys IH]; intros Hk; [done|].
  destruct (Hk k) as (Hval & Hl & c & r & Hg & Hu & Ha); [by left|].
  cbn [getQualifiers_loop]. rewrite (Values_Get_Has _ _ _ _ Hg). simpl negb. cbv iota.
  rewrite Hval, Hg. simpl negb. cbv iota.
  cbn [slice_to slice_from go_bind String.length Nat.leb].
  unfold take, drop. cbn [String.length String.substring Nat.sub].
  replace (String.substring 0 0 r) with "" by (by destruct r).
  rewrite Nat.sub_0_r, substring_all, ToLower_first by assumption.
  rewrite append_cons, append_nil_l.
  rewrite Hl, !String.eqb_refl. simpl negb. cbv iota.
  apply IH. intros k' Hk'. apply Hk. by right.
Qed.

Lemma getQualifiers_Encode_normal (v : Values) :
  (forall k xs, v !! k = Some xs ->
     validQualifierKey k = true /\ ToLower k = k /\
     exists c r rest, xs = String c r :: rest /\ is_upper_letter c = false /\
       (code c < 128)%N) ->
  getQualifiers (Encode v) = Ret (Ok v).
Proof.
  intros Hv. unfold getQualifiers, getQualifiers_with.
  rewrite ParseQuery_Encode_values.
  2:{ intros k xs Hk. destruct (Hv k xs Hk) as (_ & _ & c & r & rest & -> & _). done. }
  apply getQualifiers_loop_normal. intros k Hk.
  apply list_elem_of_fmap in Hk as ([k0 xs] & -> & Hin).
  apply elem_of_map_to_list in Hin. simpl.
  destruct (Hv k0 xs Hin) as (Hval & Hl & c & r & rest & -> & Hu & Ha).
  repeat split; [done|done|]. exists c, r. unfold Values_Get. by rewrite Hin.
Qed.

(** Extra: [url.ParseQuery] reads back the output of [Values.Encode] when no
    key has an empty list of values. *)
Theorem ParseQuery_Encode (v : Values) :
  (forall k xs, v !! k = Some xs -> xs <> []) -> ParseQuery (Encode v) = (v, None).
Proof. apply ParseQuery_Encode_values. Qed.

(** Extra: [getQualifiers] reads back the output of [Values.Encode] for
    qualifiers in the form [getQualifiers] returns them: valid, lower-case
    keys, each with a non-empty first value that starts with an ASCII byte
    other than an upper-case letter. *)
Theorem getQualifiers_Encode (v : Values) :
  (forall k xs, v !! k = Some xs ->
     validQualifierKey k = true /\ ToLower k = k /\
     exists c r rest, xs = String c r :: rest /\ is_upper_letter c = false /\
       (code c < 128)%N) ->
  getQualifiers (Encode v) = Ret (Ok v).
Proof. apply getQualifiers_Encode_normal. Qed.

Lemma ParseQuery_Encode_witness :
  ParseQuery (Encode {["a b" := ["1&2"; "x=y"]; "c" := ["+"]]}) =
  ({["a b" := ["1&2"; "x=y"]; "c" := ["+"]]}, None).
Proof.
  apply ParseQuery_Encode. intros k xs Hk.
  apply lookup_insert_Some in Hk as [[_ <-]|[_ Hk]]; [done|].
  apply lookup_singleton_Some in Hk as [_ <-]. done.
Defined.

Lemma getQualifiers_Encode_witness :
  getQualifiers (Encode {["arch" := ["x86_64"; "Y"]; "os" := ["linux"]]}) =
  Ret (Ok {["arch" := ["x86_64"; "Y"]; "os" := ["linux"]]}).
Proof.
  apply getQualifiers_Encode. intros k xs Hk.
  apply lookup_insert_Some in Hk as [[<- <-]|[_ Hk]].
  - split; [reflexivity|]. split; [reflexivity|].
    exists "x"%char, "86_64", ["Y"]. split; [reflexivity|]. split; [reflexivity|].
    vm_compute. reflexivity.
  - apply lookup_singleton_Some in Hk as [<- <-].
    split; [reflexivity|]. split; [reflexivity|].
    exists "l"%char, "inux", []. split; [reflexivity|]. split; [reflexivity|].
    vm_compute. reflexivity.
Defined.

Lemma ContainsByte_split (s : string) (c : ascii) :
  ContainsByte s c = true -> exists a b, s = a +:+ String c b.
Proof.
  induction s as [|x s IH]; [discriminate|]. cbn [ContainsByte].
  destruct (ascii_dec c x) as [->|_]; intros H.
  - by exists "", s.
  - destruct (IH H) as (a & b & ->). exists (String x a), b. by rewrite append_cons.
Qed.

Lemma Contains_byte_eq (s : string) (c : ascii) :
  Contains s (String c "") = ContainsByte s c.
Proof.
  destruct (ContainsByte s c) eqn:E; [|by apply Contains_byte].
  apply Contains_spec. destruct (ContainsByte_split _ _ E) as (a & b & ->).
  exists a, b. by rewrite append_cons, append_nil_l.
Qed.

(** A byte other than '&' of [s] lies in the first '&'-separated segment
    or in the rest. *)
Lemma Cut_byte (s key rest : string) (f : bool) (c : ascii) :
  c <> amp -> Cut s amp = (key, rest, f) -> ContainsByte s c = true ->
  ContainsByte key c = true \/ ContainsByte rest c = true.
Proof.
  intros Hca Hc H. destruct (Cut_spec _ _ _ _ _ Hc) as [[_ ->]|[_ [-> ->]]]; [|by left].
  rewrite ContainsByte_app in H. cbn [ContainsByte] in H.
  destruct (ContainsByte key c); [by left|]. right.
  by destruct (ascii_dec c amp).
Qed.

Lemma parseQuery_loop_err (n : nat) (m : Values) (e : error) (s : string) :
  exists m' e', parseQuery_loop n m (Some e) s = (m', Some e').
Proof.
  revert m e s. induction n as [|n IH]; intros m e s; cbn [parseQuery_loop].
  { by eexists _, _. }
  destruct (String.eqb s ""); [by eexists _, _|].
  destruct (Cut s amp) as [[key rest] f].
  repeat case_match; apply IH.
Qed.

Lemma parseQuery_loop_semicolon (n : nat) (m : Values) (err : option error) (s : string) :
  (String.length s <= n)%nat -> ContainsByte s ";" = true ->
  exists m' e, parseQuery_loop n m err s = (m', Some e).
Proof.
  revert m err s. induction n as [|n IH]; intros m err s Hn Hs.
  { destruct s; [discriminate|simpl in Hn; lia]. }
  cbn [parseQuery_loop].
  destruct (String.eqb s "") eqn:He.
  { apply String.eqb_eq in He. subst. discriminate. }
  apply String.eqb_neq in He.
  destruct (Cut s amp) as [[key rest] f] eqn:Hc.
  pose proof (Cut_length _ _ _ _ _ He Hc) as Hl.
  rewrite Contains_byte_eq.
  destruct (ContainsByte key ";") eqn:Hk; [apply parseQuery_loop_err|].
  destruct (Cut_byte _ _ _ _ ";" ltac:(discriminate) Hc Hs) as [Hk'|Hr]; [congruence|].
  repeat case_match; apply IH; (lia || done).
Qed.

(** [Map] of a slice extended by one pair. *)
Lemma Map_snoc (l : Qualifiers) (q : Qualifier) :
  Map (l ++ [q])%list = <[Key q := Value q]> (Map l).
Proof. unfold Map. by rewrite fold_left_app. Qed.

(** Extra: [Qualifiers.Map] keeps, for every key, the value of the last
    qualifier with that key; a key of no qualifier is absent. *)
Theorem Map_last_value (l : Qualifiers) (k : string) :
  Map l !! k = last (map Value (filter (fun q => Key q = k) l)).
Proof.
  induction l as [|q l IH] using rev_ind; [done|].
  rewrite Map_snoc, filter_app, filter_cons, filter_nil.
  destruct (decide (Key q = k)) as [<-|Hne].
  - rewrite lookup_insert_eq, map_app. cbn [map]. by rewrite last_snoc.
  - rewrite lookup_insert_ne by done. by rewrite app_nil_r.
Qed.

(** Extra: [getQualifiers] returns an error, and no qualifiers, for every raw
    query that contains ';' ([url.ParseQuery] rejects ';' separators). *)
Theorem getQualifiers_semicolon (rawQuery : string) :
  Contains rawQuery ";" = true -> exists e, getQualifiers rawQuery = Ret (Err e).
Proof.
  intros H. rewrite Contains_byte_eq in H. unfold getQualifiers, getQualifiers_with, ParseQuery.
  destruct (parseQuery_loop_semicolon (String.length rawQuery) ∅ None rawQuery (le_n _) H)
    as (m' & e & ->).
  by eexists.
Qed.

Lemma getQualifiers_semicolon_witness :
  Contains "a=1;b=2&c=3" ";" = true /\
  exists e, getQualifiers "a=1;b=2&c=3" = Ret (Err e).
Proof. split; [reflexivity|]. apply getQualifiers_semicolon. reflexivity. Defined.

Lemma parseQualifiers_loop_semicolon (n : nat) (q : Qualifiers) (s : string) (l : Qualifiers) :
  (String.length s <= n)%nat -> ContainsByte s ";" = true ->
  parseQualifiers_loop n q s <> Ret (Ok l).
Proof.
  revert q s. induction n as [|n IH]; intros q s Hn Hs.
  { destruct s; [discriminate|simpl in Hn; lia]. }
  cbn [parseQualifiers_loop].
  destruct (String.eqb s "") eqn:He.
  { apply String.eqb_eq in He. subst. discriminate. }
  apply String.eqb_neq in He.
  destruct (Cut s amp) as [[key rest] f] eqn:Hc.
  pose proof (Cut_length _ _ _ _ _ He Hc) as Hl.
  rewrite Contains_byte_eq.
  destruct (ContainsByte key ";") eqn:Hk; [discriminate|].
  destruct (Cut_byte _ _ _ _ ";" ltac:(discriminate) Hc Hs) as [Hk'|Hr]; [congruence|].
  unfold go_bind. repeat case_match; try discriminate; apply IH; (lia || done).
Qed.

(** Extra: the slice-based [parseQualifiers] never returns qualifiers for a
    raw query that contains ';': it returns an error or panics. *)
Theorem parseQualifiers_semicolon (rawQuery : string) (l : Qualifiers) :
  Contains rawQuery ";" = true -> parseQualifiers rawQuery <> Ret (Ok l).
Proof.
  intros H. rewrite Contains_byte_eq in H.
  by apply parseQualifiers_loop_semicolon.
Qed.

Lemma parseQualifiers_semicolon_witness :
  Contains "a=1&b=2;c=3" ";" = true /\ parseQualifiers "a=1&b=2;c=3" <> Ret (Ok []).
Proof. split; [reflexivity|]. apply parseQualifiers_semicolon. reflexivity. Defined.

Lemma key_start_lower (c : ascii) : key_start (lower c) = key_start c.
Proof. destruct c as [[] [] [] [] [] [] [] []]; reflexivity. Qed.

Lemma key_char_lower (c : ascii) : key_char (lower c) = key_char c.
Proof. destruct c as [[] [] [] [] [] [] [] []]; reflexivity. Qed.

Lemma key_char_ascii (c : ascii) : key_char c = true -> (code c <? RuneSelf)%N = true.
Proof. destruct c as [[] [] [] [] [] [] [] []]; intros H; (reflexivity || discriminate H). Qed.

Lemma all_key_chars_ascii (k : string) : all_key_chars k = true -> isASCII k = true.
Proof.
  induction k as [|c k IH]; [done|]. cbn [all_key_chars isASCII]. intros H.
  apply andb_prop in H as [Hc Hk]. by rewrite key_char_ascii, IH.
Qed.

Lemma validQualifierKey_ascii (k : string) : validQualifierKey k = true -> isASCII k = true.
Proof. intros H. by apply all_key_chars_ascii, validQualifierKey_chars. Qed.

Lemma validQualifierKey_ToLowerASCII (k : string) :
  validQualifierKey (ToLowerASCII k) = validQualifierKey k.
Proof.
  destruct k as [|c k]; [done|]. cbn [ToLowerASCII validQualifierKey].
  rewrite key_start_lower. f_equal.
  induction k as [|d k IH]; [done|]. cbn [ToLowerASCII all_key_chars].
  by rewrite key_char_lower, IH.
Qed.

(** A valid qualifier key is ASCII, so [strings.ToLower] keeps it valid and
    a second [strings.ToLower] changes nothing. *)
Lemma validQualifierKey_ToLower (k : string) :
  validQualifierKey k = true ->
  validQualifierKey (ToLower k) = true /\ ToLower (ToLower k) = ToLower k.
Proof.
  intros H. pose proof (validQualifierKey_ascii k H) as Ha.
  split; [|by apply ToLower_idem_ascii].
  by rewrite ToLower_ascii, validQualifierKey_ToLowerASCII.
Qed.

Lemma parseQualifiers_loop_inv (n : nat) (acc : Qualifiers) (s : string) (l : Qualifiers) :
  parseQualifiers_loop n acc s = Ret (Ok l) ->
  Forall (fun q => validQualifierKey (Key q) = true /\ ToLower (Key q) = Key q /\
                   Value q <> "") acc ->
  Forall (fun q => validQualifierKey (Key q) = true /\ ToLower (Key q) = Key q /\
                   Value q <> "") l.
Proof.
  revert acc s. induction n as [|n IH]; intros acc s H Hacc; cbn [parseQualifiers_loop] in H.
  { by simplify_eq. }
  destruct (String.eqb s ""); [by simplify_eq|].
  destruct (Cut s amp) as [[key rest] f].
  destruct (Contains key ";"); [discriminate|].
  destruct (String.eqb key ""); [by eapply IH|].
  destruct (Cut key "=") as [[k v] f'].
  destruct (QueryUnescape k) as [k'|]; [|discriminate].
  destruct (validQualifierKey k') eqn:Hk; [|discriminate]. simpl negb in H. cbv iota in H.
  destruct (QueryUnescape v) as [v'|]; [|discriminate].
  unfold slice_to, slice_from, go_bind in H.
  destruct (Nat.leb 1 (String.length v')) eqn:Hv; [|discriminate].
  eapply IH; [exact H|]. apply Forall_app. split; [exact Hacc|].
  apply Forall_singleton. cbn [Key Value].
  destruct (validQualifierKey_ToLower k' Hk) as [Hv1 Hv2]. split; [done|]. split; [done|].
  destruct v' as [|c v']; [discriminate|].
  replace (take 1 (String c v')) with (String c "") by (unfold take; cbn; by destruct v').
  destruct (ToLower_first_head c) as (d & t & -> & _). rewrite append_cons. discriminate.
Qed.

(** Extra: every qualifier that the slice-based [parseQualifiers] returns
    has a valid, lower-case key and a non-empty value. *)
Theorem parseQualifiers_keys_values (rawQuery : string) (l : Qualifiers) :
  parseQualifiers rawQuery = Ret (Ok l) ->
  Forall (fun q => validQualifierKey (Key q) = true /\ ToLower (Key q) = Key q /\
                   Value q <> "") l.
Proof. intros H. eapply parseQualifiers_loop_inv; [exact H|constructor]. Qed.

Lemma parseQualifiers_keys_values_witness :
  Forall (fun q => validQualifierKey (Key q) = true /\ ToLower (Key q) = Key q /\
                   Value q <> "") [mkQualifier "arch" "x86"; mkQualifier "os" "linux"].
Proof.
  apply (parseQualifiers_keys_values "Arch=X86&&os=Linux"). vm_compute. reflexivity.
Defined.

Lemma upper_lower (c : ascii) : is_upper_letter (lower c) = false.
Proof. destruct c as [[] [] [] [] [] [] [] []]; reflexivity. Qed.

Lemma lower_fixed (c : ascii) : lower c = c -> is_upper_letter c = false.
Proof.
  destruct c as [[] [] [] [] [] [] [] []]; intros H;
    (reflexivity || (vm_compute in H; discriminate H)).
Qed.

Lemma getQualifiers_loop_normalises (keys : list string) (q m : Values) :
  getQualifiers_loop keys q = Ret (Ok m) ->
  (forall k xs, q !! k = Some xs -> k ∈ keys \/
     (validQualifierKey k = true /\ ToLower k = k /\
      exists c r rest, xs = String c r :: rest /\ is_upper_letter c = false)) ->
  forall k xs, m !! k = Some xs ->
    validQualifierKey k = true /\ ToLower k = k /\
    exists c r rest, xs = String c r :: rest /\ is_upper_letter c = false.
Proof.
  revert q. induction keys as [|k keys IH]; intros q H Hinv.
  { cbn in H. simplify_eq. intros k xs Hk.
    destruct (Hinv k xs Hk) as [Hin|Hn]; [set_solver|exact Hn]. }
  cbn [getQualifiers_loop] in H. unfold Values_Has in H.
  destruct (q !! k) as [xs0|] eqn:Hqk; cycle 1.
  { rewrite bool_decide_eq_false_2 in H by (intros [? Hs]; discriminate Hs).
    cbn [negb] in H. apply (IH q H). intros k' xs' Hk'.
    destruct (Hinv k' xs' Hk') as [Hin|Hn]; [|by right].
    apply elem_of_cons in Hin as [->|Hin]; [congruence|by left]. }
  rewrite bool_decide_eq_true_2 in H by done. cbn [negb] in H.
  destruct (validQualifierKey k) eqn:Hval; [|discriminate]. simpl negb in H. cbv iota in H.
  destruct (validQualifierKey_ToLower k Hval) as [Hval' Hidem].
  unfold Values_Get in H. rewrite Hqk in H.
  destruct xs0 as [|[|c r] rest]; [discriminate|discriminate|].
  cbn [slice_to slice_from go_bind String.length Nat.leb] in H.
  unfold take, drop in H. cbn [String.length String.substring Nat.sub] in H.
  replace (String.substring 0 0 r) with "" in H by (by destruct r).
  rewrite Nat.sub_0_r, substring_all in H.
  destruct (ToLower_first_head c) as (d & t & Hd & Hu). rewrite Hd, append_cons in H.
  destruct (String.eqb (ToLower k) k) eqn:Hl; cbn [negb] in H.
  - apply String.eqb_eq in Hl.
    destruct (String.eqb (String d (t +:+ r)) (String c r)) eqn:Hv;
      cbn [negb] in H.
    + apply String.eqb_eq in Hv. injection Hv as <- _.
      apply (IH q H). intros k' xs' Hk'.
      destruct (decide (k' = k)) as [->|Hne].
      * right. rewrite Hqk in Hk'. injection Hk' as <-.
        split; [done|]. split; [done|]. by exists d, r, rest.
      * destruct (Hinv k' xs' Hk') as [Hin|Hn]; [left; set_solver|by right].
    + apply (IH _ H). intros k' xs' Hk'. unfold Values_Set in Hk'.
      apply lookup_insert_Some in Hk' as [[<- <-]|[Hne Hk']].
      * right. split; [done|]. split; [done|]. by exists d, (t +:+ r), [].
      * destruct (Hinv k' xs' Hk') as [Hin|Hn]; [left; set_solver|by right].
  - apply (IH _ H). intros k' xs' Hk'. unfold Values_Set, Values_Del in Hk'.
    apply lookup_insert_Some in Hk' as [[<- <-]|[Hne Hk']].
    + right. split; [done|]. split; [done|]. by exists d, (t +:+ r), [].
    + apply lookup_delete_Some in Hk' as [Hne' Hk'].
      destruct (Hinv k' xs' Hk') as [Hin|Hn]; [left; set_solver|by right].
Qed.

Lemma getQualifiers_with_result_normal (order : Values -> list string) (rawQuery : string)
    (m : Values) :
  (forall q k, is_Some (q !! k) -> k ∈ order q) ->
  getQualifiers_with order rawQuery = Ret (Ok m) ->
  forall k xs, m !! k = Some xs ->
    validQualifierKey k = true /\ ToLower k = k /\
    exists c r rest, xs = String c r :: rest /\ is_upper_letter c = false.
Proof.
  intros Horder. unfold getQualifiers_with.
  destruct (ParseQuery rawQuery) as [q [e|]]; [discriminate|].
  intros H. apply (getQualifiers_loop_normalises _ q m H).
  intros k xs Hk. left. apply Horder. by exists xs.
Qed.

Lemma getQualifiers_order (q : Values) (k : string) :
  is_Some (q !! k) -> k ∈ (map_to_list q).*1.
Proof.
  intros [xs Hk]. apply list_elem_of_fmap. exists (k, xs). split; [done|].
  by apply elem_of_map_to_list.
Qed.

Lemma getQualifiers_result_normal (rawQuery : string) (m : Values) :
  getQualifiers rawQuery = Ret (Ok m) ->
  forall k xs, m !! k = Some xs ->
    validQualifierKey k = true /\ ToLower k = k /\
    exists c r rest, xs = String c r :: rest /\ is_upper_letter c = false.
Proof. apply getQualifiers_with_result_normal. apply getQualifiers_order. Qed.

(** Extra: every key of the qualifiers that [getQualifiers] returns is a
    valid, lower-case qualifier key, and its first value is non-empty and
    does not start with an upper-case letter. *)
Theorem getQualifiers_normalised (rawQuery : string) (m : Values) :
  getQualifiers rawQuery = Ret (Ok m) ->
  forall k xs, m !! k = Some xs ->
    validQualifierKey k = true /\ ToLower k = k /\
    exists c r rest, xs = String c r :: rest /\ is_upper_letter c = false.
Proof. apply getQualifiers_result_normal. Qed.

Lemma getQualifiers_normalised_witness :
  getQualifiers "Arch=X86&os=linux&os=Mac" = Ret (Ok {["arch" := ["x86"]; "os" := ["linux"; "Mac"]]}) /\
  (validQualifierKey "os" = true /\ ToLower "os" = "os" /\
   exists c r rest, ["linux"; "Mac"] = String c r :: rest /\ is_upper_letter c = false).
Proof.
  assert (H : getQualifiers "Arch=X86&os=linux&os=Mac" =
              Ret (Ok {["arch" := ["x86"]; "os" := ["linux"; "Mac"]]})).
  { vm_compute. reflexivity. }
  split; [exact H|]. apply (getQualifiers_normalised _ _ H). vm_compute. reflexivity.
Defined.

(** Extra: the normal form of [getQualifiers]' result holds for every
    iteration order Go allows for its range loop over the map: the loop
    yields every key present when it starts, in any order, and may or may
    not yield the keys it adds. *)
Theorem getQualifiers_with_normalised (order : Values -> list string) (rawQuery : string)
    (m : Values) :
  (forall q k, is_Some (q !! k) -> k ∈ order q) ->
  getQualifiers_with order rawQuery = Ret (Ok m) ->
  forall k xs, m !! k = Some xs ->
    validQualifierKey k = true /\ ToLower k = k /\
    exists c r rest, xs = String c r :: rest /\ is_upper_letter c = false.
Proof. apply getQualifiers_with_result_normal. Qed.

Lemma getQualifiers_with_normalised_witness :
  getQualifiers_with (fun q => "arch" :: reverse (map_to_list q).*1) "Arch=X86&os=Linux" =
    Ret (Ok {["arch" := ["x86"]; "os" := ["linux"]]}) /\
  (validQualifierKey "arch" = true /\ ToLower "arch" = "arch" /\
   exists c r rest, ["x86"] = String c r :: rest /\ is_upper_letter c = false).
Proof.
  assert (H : getQualifiers_with (fun q => "arch" :: reverse (map_to_list q).*1)
                "Arch=X86&os=Linux" = Ret (Ok {["arch" := ["x86"]; "os" := ["linux"]]})).
  { vm_compute. reflexivity. }
  split; [exact H|]. apply (getQualifiers_with_normalised _ _ _ ltac:(
    intros q k Hk; apply elem_of_cons; right; rewrite elem_of_reverse;
    by apply getQualifiers_order) H).
  vm_compute. reflexivity.
Defined.

(** Extra: [getQualifiers] replaces a first value byte outside ASCII by the
    three bytes of U+FFFD: [strings.ToLower] of the one-byte slice [v[:1]],
    which is not valid UTF-8, yields "\xEF\xBF\xBD".  So a value "é"
    (bytes C3 A9) comes back as the bytes EF BF BD A9. *)
Theorem getQualifiers_non_ascii_first_byte (k : string) (c : ascii) (r : string) :
  validQualifierKey k = true -> ToLower k = k -> (128 <= code c)%N ->
  getQualifiers (QueryEscape k +:+ "=" +:+ QueryEscape (String c r)) =
  Ret (Ok {[k := [EncodeRune RuneError +:+ r]]}).
Proof.
  intros Hk Hl Hc. unfold getQualifiers, getQualifiers_with, ParseQuery.
  destruct (String.length (QueryEscape k +:+ "=" +:+ QueryEscape (String c r))) as [|n] eqn:E.
  { rewrite !length_append in E. cbn [String.length] in E. lia. }
  pose proof (parseQuery_loop_pair n ∅ None k (String c r) "" false) as H.
  cbn iota in H. rewrite append_nil_r in H. rewrite H, parseQuery_loop_empty.
  unfold Values_Add. rewrite lookup_empty. cbn [default app].
  rewrite insert_empty, map_to_list_singleton. cbn [fmap list_fmap fst].
  cbn [getQualifiers_loop]. unfold Values_Has.
  rewrite bool_decide_eq_true_2 by (rewrite lookup_singleton_eq; by eexists).
  cbn [negb]. rewrite Hk. cbn [negb].
  unfold Values_Get. rewrite lookup_singleton_eq.
  cbn [slice_to slice_from go_bind String.length Nat.leb].
  unfold take, drop. cbn [String.length String.substring Nat.sub].
  replace (String.substring 0 0 r) with "" by (by destruct r).
  rewrite Nat.sub_0_r, substring_all, ToLower_byte.
  replace (code c <? RuneSelf)%N with false by (symmetry; apply N.ltb_ge; exact Hc).
  rewrite Hl, String.eqb_refl. cbn [negb].
  destruct (String.eqb (EncodeRune RuneError +:+ r) (String c r)) eqn:Ev; cbn [negb].
  - apply String.eqb_eq in Ev. by rewrite Ev.
  - unfold Values_Set. by rewrite insert_singleton_eq.
Qed.

Lemma getQualifiers_non_ascii_first_byte_witness :
  getQualifiers (QueryEscape "os" +:+ "=" +:+ QueryEscape (String "195" (String "169" ""))) =
  Ret (Ok {["os" := [EncodeRune RuneError +:+ String "169" ""]]}).
Proof.
  apply getQualifiers_non_ascii_first_byte; [reflexivity|reflexivity|apply N.leb_le; reflexivity].
Defined.

Lemma separateNamespaceNameVersion_name (path ns name version : string) :
  Purl.separateNamespaceNameVersion path = Ok (ns, name, version) -> name <> "".
Proof.
  unfold Purl.separateNamespaceNameVersion. intros Hs.
  repeat case_match; try discriminate; simplify_eq; by apply String.eqb_neq.
Qed.

Lemma typeAdjustName_nonempty (purlType name : string) (q : Values) :
  name <> "" -> typeAdjustName purlType name q <> "".
Proof.
  intros Hn. unfold typeAdjustName, adjustMlflowName.
  repeat case_match; try done; apply ToLower_nonempty; try done.
  destruct name; [done|]. discriminate.
Qed.

Lemma TrimLeft_head (s : string) (c : ascii) (t : string) :
  TrimLeft s c <> String c t.
Proof.
  induction s as [|d s IH]; [discriminate|]. cbn [TrimLeft].
  destruct (ascii_dec c d) as [->|Hne]; [apply IH|]. congruence.
Qed.

Lemma TrimRight_head (s : string) (c d : ascii) :
  c <> d -> TrimRight (String d s) c = String d (TrimRight s c).
Proof.
  intros Hne. cbn [TrimRight]. destruct (TrimRight s c); [|done].
  by destruct (ascii_dec c d).
Qed.

Lemma TrimRight_last (s : string) (c : ascii) (t : string) :
  TrimRight s c <> t +:+ String c "".
Proof.
  revert t. induction s as [|d s IH]; intros t.
  { destruct t; discriminate. }
  cbn [TrimRight]. destruct (TrimRight s c) as [|x r] eqn:E.
  - destruct (ascii_dec c d) as [->|Hne]; [by destruct t|].
    destruct t as [|y t]; [intros H; injection H; congruence|].
    rewrite append_cons. intros H. injection H as _ H. by destruct t.
  - destruct t as [|y t].
    + intros H. injection H as _ H. discriminate.
    + rewrite append_cons. intros H. injection H as _ H. by apply (IH t).
Qed.

Lemma Trim_ends (s : string) (c : ascii) :
  (forall t, Trim s c <> String c t) /\ (forall t, Trim s c <> t +:+ String c "").
Proof.
  unfold Trim. split; [|intros t; apply TrimRight_last].
  intros t. destruct (TrimLeft s c) as [|d r] eqn:E; [discriminate|].
  destruct (ascii_dec c d) as [->|Hne].
  - exfalso. by apply (TrimLeft_head s d r).
  - rewrite TrimRight_head by done. congruence.
Qed.

Lemma FromString_record_of (purl : string) (p : PackageURL) :
  FromString purl = Ret (p, None) -> FromString_record purl = Ret (Ok p).
Proof.
  unfold FromString. destruct (FromString_record purl) as [[p'|e]|msg]; cbn [go_bind];
    intros H; simplify_eq; done.
Qed.

(** Extra: a purl that [FromString] parses without error has a non-empty
    name, a subpath that neither starts nor ends with '/', and qualifier
    keys that are valid and lower-case. *)
Theorem FromString_ok_shape (purl : string) (p : PackageURL) :
  FromString purl = Ret (p, None) ->
  Name p <> "" /\
  (forall t, Subpath p <> String "/" t) /\ (forall t, Subpath p <> t +:+ "/") /\
  (forall k xs, Purl.Qualifiers p !! k = Some xs ->
     validQualifierKey k = true /\ ToLower k = k).
Proof.
  intros H. apply FromString_record_of in H. unfold FromString_record in H.
  destruct (Parse purl) as [u|e]; [|discriminate].
  destruct (negb (String.eqb (Scheme u) "pkg")); [discriminate|].
  destruct (Cut _ slash) as [[typ rest] ok].
  destruct (negb ok); [discriminate|].
  destruct (getQualifiers (RawQuery u)) as [[qs|e]|msg] eqn:Hq; cbn [go_bind] in H;
    try discriminate.
  destruct (Purl.separateNamespaceNameVersion rest) as [[[ns nm] ver]|e] eqn:Hs;
    [|simpl in H; discriminate].
  injection H as <-. cbn [Type_ Name Subpath Purl.Qualifiers]. split.
  { apply typeAdjustName_nonempty. by eapply separateNamespaceNameVersion_name. }
  destruct (Trim_ends (Fragment u) slash) as [H1 H2].
  split; [exact H1|]. split; [exact H2|].
  intros k xs Hk. destruct (getQualifiers_result_normal _ _ Hq k xs Hk) as (? & ? & _).
  done.
Qed.

Lemma FromString_ok_shape_witness :
  Name (mkPURL "npm" "" "pkg" "" {["arch" := ["x86"]]} "a/b") <> "" /\
  (forall t, Subpath (mkPURL "npm" "" "pkg" "" {["arch" := ["x86"]]} "a/b") <> String "/" t) /\
  (forall t, Subpath (mkPURL "npm" "" "pkg" "" {["arch" := ["x86"]]} "a/b") <> t +:+ "/") /\
  (forall k xs, Purl.Qualifiers (mkPURL "npm" "" "pkg" "" {["arch" := ["x86"]]} "a/b") !! k = Some xs ->
     validQualifierKey k = true /\ ToLower k = k).
Proof.
  apply (FromString_ok_shape "pkg:NPM/Pkg?Arch=x86#/a/b/"). vm_compute. reflexivity.
Defined.

(** Extra: the slice-based [separateNamespaceNameVersion] takes the name
    before the first '@' of the last path segment and the version between
    the first and the second '@'; what follows a second '@' is dropped.  The
    namespace is the unescaped text before the last '/', or empty when the
    path has no '/'. *)
Theorem Ordered_separate_second_at (path n v w : string) (nsr : option string)
    (ns name version : string) :
  namespace_split path nsr (n +:+ String "@" (v +:+ String "@" w)) ->
  ContainsByte n "@" = false -> ContainsByte v "@" = false ->
  decode_opt nsr = Ok ns -> PathUnescape n = Ok name -> name <> "" ->
  PathUnescape v = Ok version ->
  Ordered.separateNamespaceNameVersion path = Ok (ns, name, version).
Proof.
  intros Hsplit Hn Hv Ha Hname Hne Hver.
  unfold Ordered.separateNamespaceNameVersion.
  inversion Hsplit as [a r Hr Hpath Hnsr Hr'|r Hr Hpath Hnsr Hr']; subst;
    cbn [decode_opt] in Ha.
  - rewrite LastIndex_found by exact Hr. rewrite take_app, drop_app, Ha.
    change "@"%char with at_sign in *.
    rewrite (Cut_app_missing n _ n "") by (by apply Cut_none).
    rewrite Hname. destruct (String.eqb name "") eqn:E; [by apply String.eqb_eq in E|].
    rewrite (Cut_app_missing v _ v "") by (by apply Cut_none).
    by rewrite Hver.
  - rewrite LastIndex_none by exact Hr. injection Ha as <-.
    change "@"%char with at_sign in *.
    rewrite (Cut_app_missing n _ n "") by (by apply Cut_none).
    rewrite Hname. destruct (String.eqb name "") eqn:E; [by apply String.eqb_eq in E|].
    rewrite (Cut_app_missing v _ v "") by (by apply Cut_none).
    by rewrite Hver.
Qed.

Lemma Ordered_separate_second_at_witness :
  Ordered.separateNamespaceNameVersion
    ("ns" +:+ String "/" ("n" +:+ String "@" ("1.0" +:+ String "@" "x"))) =
    Ok ("ns", "n", "1.0") /\
  Ordered.separateNamespaceNameVersion ("n" +:+ String "@" ("1.0" +:+ String "@" "x")) =
    Ok ("", "n", "1.0").
Proof.
  split.
  - apply (Ordered_separate_second_at _ "n" "1.0" "x" (Some "ns"));
      [apply ns_split_found; reflexivity|..]; reflexivity || discriminate.
  - apply (Ordered_separate_second_at _ "n" "1.0" "x" None);
      [apply ns_split_none; reflexivity|..]; reflexivity || discriminate.
Defined.

Lemma lower_underscore (c : ascii) : c <> "_"%char -> lower c <> "_"%char.
Proof.
  destruct c as [[] [] [] [] [] [] [] []]; intros H; try discriminate; by exfalso.
Qed.

Lemma ReplaceAll_pypi (s : string) :
  ReplaceAll (ToLowerASCII (ReplaceAll s "_" "-")) "_" "-" = ToLowerASCII (ReplaceAll s "_" "-").
Proof.
  induction s as [|c s IH]; [done|]. cbn [ReplaceAll ToLowerASCII]. rewrite IH.
  destruct (ascii_dec c "_") as [->|Hne]; [done|].
  by destruct (ascii_dec (lower c) "_") as [E|]; [exfalso; exact (lower_underscore c Hne E)|].
Qed.

Lemma isASCII_ReplaceAll (s : string) :
  isASCII s = true -> isASCII (ReplaceAll s "_" "-") = true.
Proof.
  induction s as [|c s IH]; [done|]. cbn [ReplaceAll isASCII]. intros H.
  apply andb_prop in H as [Hc Hs]. rewrite IH by exact Hs.
  by destruct (ascii_dec c "_"); [|rewrite Hc].
Qed.

(** Extra: on ASCII input, the type-specific normalisation that
    [FromString] applies to the namespace, the name and the version is
    idempotent: normalising its output again, for the same type and
    qualifiers, changes nothing. *)
Theorem typeAdjust_idempotent (purlType ns name version : string) (q : Values) :
  isASCII ns = true -> isASCII name = true -> isASCII version = true ->
  typeAdjustNamespace purlType (typeAdjustNamespace purlType ns) =
    typeAdjustNamespace purlType ns /\
  typeAdjustName purlType (typeAdjustName purlType name q) q =
    typeAdjustName purlType name q /\
  typeAdjustVersion purlType (typeAdjustVersion purlType version) =
    typeAdjustVersion purlType version.
Proof.
  intros Hns Hname Hver. split; [|split].
  - unfold typeAdjustNamespace. case_match; [by apply ToLower_idem_ascii|done].
  - unfold typeAdjustName. case_match; [by apply ToLower_idem_ascii|].
    case_match.
    { pose proof (isASCII_ReplaceAll _ Hname) as Hr.
      rewrite (ToLower_ascii _ Hr), ReplaceAll_pypi.
      rewrite ToLower_ascii by (by apply isASCII_ToLowerASCII).
      apply ToLowerASCII_idem. }
    case_match; [|done].
    unfold adjustMlflowName. repeat case_match; try done. by apply ToLower_idem_ascii.
  - unfold typeAdjustVersion. case_match; [by apply ToLower_idem_ascii|done].
Qed.

Lemma typeAdjust_idempotent_witness :
  typeAdjustNamespace "pypi" (typeAdjustNamespace "pypi" "NS") = typeAdjustNamespace "pypi" "NS" /\
  typeAdjustName "pypi" (typeAdjustName "pypi" "Foo_Bar" ∅) ∅ = typeAdjustName "pypi" "Foo_Bar" ∅ /\
  typeAdjustVersion "pypi" (typeAdjustVersion "pypi" "V1") = typeAdjustVersion "pypi" "V1".
Proof. apply typeAdjust_idempotent; reflexivity. Defined.

Lemma Map_lookup_in (l : Qualifiers) (k v : string) :
  Map l !! k = Some v -> exists q, q ∈ l /\ Value q = v.
Proof.
  induction l as [|q l IH] using rev_ind; [done|].
  rewrite Map_snoc. intros H.
  apply lookup_insert_Some in H as [[_ <-]|[_ H]].
  - exists q. split; [|done]. apply list_elem_of_In, in_or_app. right. by left.
  - destruct (IH H) as (q' & Hq' & <-). exists q'. split; [|done].
    apply list_elem_of_In, in_or_app. left. by apply list_elem_of_In.
Qed.

Lemma Ordered_separate_err (path : string) (e : error) (msg : string) :
  Ordered.separateNamespaceNameVersion path = Err e -> e <> CustomRule msg.
Proof.
  unfold Ordered.separateNamespaceNameVersion. intros H.
  repeat case_match; simplify_eq; discriminate.
Qed.

Lemma Slice_FromString_record_err (purl : string) (e : error) (msg : string) :
  Slice.FromString_record purl = Ret (Err e) -> e <> CustomRule msg.
Proof.
  unfold Slice.FromString_record. intros H.
  destruct (Parse purl) as [u|e']; [|by simplify_eq].
  destruct (negb _); [by simplify_eq|].
  destruct (Cut _ slash) as [[typ rest] ok].
  destruct (negb ok); [by simplify_eq|].
  destruct (parseQualifiers (RawQuery u)) as [[qs|e']|m]; cbn [go_bind] in H;
    [|by simplify_eq|discriminate].
  destruct (Ordered.separateNamespaceNameVersion rest) as [[[ns nm] ver]|e'] eqn:Hs;
    simpl in H; [discriminate|]. simplify_eq. by eapply Ordered_separate_err.
Qed.

Lemma Slice_FromString_record_values (purl : string) (p : Slice.PackageURL) :
  Slice.FromString_record purl = Ret (Ok p) ->
  forall q, q ∈ Slice.Qualifiers p -> Value q <> "".
Proof.
  unfold Slice.FromString_record. intros H.
  destruct (Parse purl) as [u|e']; [|by simplify_eq].
  destruct (negb _); [by simplify_eq|].
  destruct (Cut _ slash) as [[typ rest] ok].
  destruct (negb ok); [by simplify_eq|].
  destruct (parseQualifiers (RawQuery u)) as [[qs|e']|m] eqn:Hq; cbn [go_bind] in H;
    [|by simplify_eq|discriminate].
  destruct (Ordered.separateNamespaceNameVersion rest) as [[[ns nm] ver]|e'] eqn:Hs;
    simpl in H; [|discriminate]. simplify_eq. simpl.
  intros q Hin.
  pose proof (parseQualifiers_loop_inv _ [] _ qs Hq (Forall_nil_2 _)) as HF.
  rewrite Forall_forall in HF. by destruct (HF q Hin) as (_ & _ & ?).
Qed.

(** Extra: the slice-based [FromString] never reports "the qualifier channel
    must be not empty if namespace is present": [parseQualifiers] never
    returns an empty value, so the check in [validCustomRules] cannot
    fire. *)
Theorem Slice_channel_rule_unreachable (purl : string) (p : Slice.PackageURL)
    (e : option error) :
  Slice.FromString purl = Ret (p, e) ->
  e <> Some (CustomRule "the qualifier channel must be not empty if namespace is present").
Proof.
  unfold Slice.FromString.
  destruct (Slice.FromString_record purl) as [[p'|err]|msg] eqn:Hr; simpl; intros H;
    simplify_eq.
  - pose proof (Slice_FromString_record_values _ _ Hr) as Hv.
    unfold Slice.validCustomRules.
    destruct (Map (Slice.Qualifiers p) !! "channel") as [val|] eqn:Hc.
    + destruct (Map_lookup_in _ _ _ Hc) as (q & Hq & <-).
      assert (Hne : String.eqb (Value q) "" = false)
        by (apply String.eqb_neq, Hv, Hq).
      rewrite Hne. repeat case_match; congruence.
    + repeat case_match; congruence.
  - intros Heq. injection Heq as Heq. by eapply Slice_FromString_record_err.
Qed.

Lemma Slice_channel_rule_unreachable_witness :
  Some (CustomRule "channel qualifier does not exist") <>
  Some (CustomRule "the qualifier channel must be not empty if namespace is present").
Proof.
  apply (Slice_channel_rule_unreachable "pkg:conan/ns/n@1?arch=x86"
           (Slice.mkPURL "conan" "ns" "n" "1" [mkQualifier "arch" "x86"] "")).
  vm_compute. reflexivity.
Defined.

(** ** The serializers, the parsers and the specification's normalize *)

Lemma fromPairs_seen_ok (seen : list string) (qs l : list Qualifier) :
  SpecNormalize.fromPairs_seen seen qs = Ok l ->
  l = map (fun q => mkQualifier (ToLower (Key q)) (SpecNormalize.lowerFirst (Value q))) qs /\
  NoDup (map Key l) /\ Forall (fun q => existsb (String.eqb (Key q)) seen = false) l.
Proof.
  revert seen l. induction qs as [|q qs IH]; intros seen l H; cbn [SpecNormalize.fromPairs_seen] in H.
  { injection H as <-. split; [done|]. split; constructor. }
  destruct (validQualifierKey (Key q)); cbn [negb] in H; [|discriminate].
  destruct (existsb (String.eqb (ToLower (Key q))) seen) eqn:Hex; [discriminate|].
  destruct (SpecNormalize.fromPairs_seen (ToLower (Key q) :: seen) qs) as [l'|e] eqn:Hr;
    [|discriminate].
  injection H as <-. destruct (IH _ _ Hr) as (-> & Hnd & Hf).
  split; [done|]. split.
  - cbn [map Key]. constructor; [|exact Hnd].
    intros Hin. apply list_elem_of_In, in_map_iff in Hin as (q' & Hk & Hin).
    apply list_elem_of_In in Hin. rewrite Forall_forall in Hf. specialize (Hf q' Hin).
    rewrite Hk in Hf. cbn [existsb] in Hf. rewrite String.eqb_refl in Hf. discriminate.
  - constructor; [exact Hex|].
    eapply Forall_impl; [exact Hf|]. intros q' H'. cbn [existsb] in H'.
    apply orb_false_iff in H' as [_ H']. exact H'.
Qed.

Lemma NoDup_key_eq (l : list Qualifier) (q1 q2 : Qualifier) :
  NoDup (map Key l) -> In q1 l -> In q2 l -> Key q1 = Key q2 -> q1 = q2.
Proof.
  induction l as [|a l IH]; intros Hnd H1 H2 Hk; [done|].
  cbn [map] in Hnd. apply NoDup_cons in Hnd as [Ha Hnd].
  destruct H1 as [<-|H1], H2 as [<-|H2]; try done.
  - exfalso. apply Ha. apply list_elem_of_In. rewrite Hk. by apply in_map.
  - exfalso. apply Ha. apply list_elem_of_In. rewrite <- Hk. by apply in_map.
  - by apply IH.
Qed.

Lemma Normalize_ok (sp sp' : Slice.PackageURL) :
  SpecNormalize.Normalize sp = Ok sp' ->
  exists l, SpecNormalize.fromPairs (Slice.Qualifiers sp) = Ok l /\
    Slice.Qualifiers sp' = SpecNormalize.canonicalQualifiers l /\
    Slice.Subpath sp' = Trim (Slice.Subpath sp) slash /\
    existsb SpecNormalize.dotSegment (tail (split_slash (Trim (Slice.Subpath sp) slash))) = false.
Proof.
  unfold SpecNormalize.Normalize. intros H.
  repeat (case_match; try discriminate). injection H as <-. eauto.
Qed.

Lemma canonicalQualifiers_elem (l : list Qualifier) (q : Qualifier) :
  q ∈ SpecNormalize.canonicalQualifiers l -> q ∈ l /\ Value q <> "".
Proof.
  unfold SpecNormalize.canonicalQualifiers. rewrite merge_sort_Permutation.
  rewrite list_elem_of_filter. tauto.
Qed.

Lemma Normalize_drops_empty (sp sp' : Slice.PackageURL) (k : string) :
  SpecNormalize.Normalize sp = Ok sp' ->
  (forall q, q ∈ Slice.Qualifiers sp' -> Value q <> "") /\
  (mkQualifier k "" ∈ Slice.Qualifiers sp ->
     forall q, q ∈ Slice.Qualifiers sp' -> Key q <> ToLower k).
Proof.
  intros H. destruct (Normalize_ok _ _ H) as (l & Hl & Hq & _).
  rewrite Hq. split.
  - intros q Hin. by apply canonicalQualifiers_elem in Hin as [_ ?].
  - intros Hk q Hin Hkey. apply canonicalQualifiers_elem in Hin as [Hin Hv].
    destruct (fromPairs_seen_ok [] _ _ Hl) as (Hmap & Hnd & _).
    assert (Hin0 : In (mkQualifier (ToLower k) "") l).
    { rewrite Hmap. apply list_elem_of_In in Hk.
      exact (in_map (fun q => mkQualifier (ToLower (Key q)) (SpecNormalize.lowerFirst (Value q)))
               _ _ Hk). }
    apply Hv. rewrite (NoDup_key_eq l q (mkQualifier (ToLower k) "") Hnd) ; try done.
    by apply list_elem_of_In.
Qed.

Lemma fromPairs_seen_dup (seen : list string) (qs : list Qualifier) :
  Forall (fun q => validQualifierKey (Key q) = true) qs ->
  (exists q, In q qs /\ In (ToLower (Key q)) seen) \/
  ~ NoDup (map (fun q => ToLower (Key q)) qs) ->
  exists k, SpecNormalize.fromPairs_seen seen qs = Err (DuplicateQualifierKey k).
Proof.
  revert seen. induction qs as [|q qs IH]; intros seen Hv Hd.
  { exfalso. destruct Hd as [(q & [] & _)|Hd]. apply Hd. constructor. }
  apply Forall_cons in Hv as [Hq Hv].
  cbn [SpecNormalize.fromPairs_seen]. rewrite Hq. cbn [negb].
  destruct (existsb (String.eqb (ToLower (Key q))) seen) eqn:Hex; [by eexists|].
  destruct (IH (ToLower (Key q) :: seen) Hv) as [k Hk].
  { destruct Hd as [(q' & [<-|Hin] & Hs)|Hd].
    - exfalso. assert (existsb (String.eqb (ToLower (Key q))) seen = true) as E.
      { apply existsb_exists. exists (ToLower (Key q)). by rewrite String.eqb_refl. }
      congruence.
    - left. exists q'. split; [done|]. by right.
    - cbn [map] in Hd. destruct (in_dec string_dec (ToLower (Key q))
                                   (map (fun q => ToLower (Key q)) qs)) as [Hin|Hnin].
      + left. apply in_map_iff in Hin as (q' & Hk & Hin). exists q'.
        split; [done|]. left. done.
      + right. intros Hnd. apply Hd. apply NoDup_cons. split; [|done].
        by rewrite list_elem_of_In. }
  rewrite Hk. by eexists.
Qed.

Lemma Normalize_duplicate (sp : Slice.PackageURL) :
  ToLower (Slice.Type_ sp) <> "" ->
  Forall (fun q => validQualifierKey (Key q) = true) (Slice.Qualifiers sp) ->
  ~ NoDup (map (fun q => ToLower (Key q)) (Slice.Qualifiers sp)) ->
  exists k, SpecNormalize.Normalize sp = Err (DuplicateQualifierKey k).
Proof.
  intros Ht Hv Hd. unfold SpecNormalize.Normalize, SpecNormalize.fromPairs.
  destruct (String.eqb (ToLower (Slice.Type_ sp)) "") eqn:E;
    [apply String.eqb_eq in E; congruence|].
  destruct (fromPairs_seen_dup [] _ Hv (or_intror Hd)) as [k ->]. by eexists.
Qed.







Lemma append_query (a b r d : string) :
  a +:+ b +:+ ("?" +:+ r) +:+ d = (a +:+ b) +:+ "?" +:+ r +:+ d.
Proof. rewrite !append_assoc. reflexivity. Qed.

Lemma URLString_query_at (u : URL) :
  RawQuery u <> "" ->
  exists pre post, URLString u = pre +:+ "?" +:+ RawQuery u +:+ post /\
    (post = "" \/ exists t, post = String "#" t).
Proof.
  intros Hq. apply String.eqb_neq in Hq. unfold URLString. cbv zeta.
  rewrite Hq, orb_true_r. cbn [negb].
  eexists _, _. split.
  - apply append_query.
  - destruct (String.eqb (Fragment u) ""); cbn [negb]; [by left|right; by eexists].
Qed.

Lemma Join_amp_nonempty (l : list string) (e : string) :
  e ∈ l -> e <> "" -> Join l "&" <> "".
Proof.
  destruct l as [|x [|y l]]; intros Hin He.
  - by apply elem_of_nil in Hin.
  - apply elem_of_cons in Hin as [->|Hin]; [done|by apply elem_of_nil in Hin].
  - cbn [Join]. apply append_nonempty_r. discriminate.
Qed.

Lemma pair_no_amp (k x : string) :
  ContainsByte (QueryEscape k +:+ "=" +:+ QueryEscape x) "&" = false.
Proof. rewrite !ContainsByte_app, !QueryEscape_no_sep by auto. done. Qed.

Lemma Encode_has_pair (v : Values) (k x : string) (xs : list string) :
  v !! k = Some xs -> x ∈ xs ->
  exists pairs, Encode v = Join pairs "&" /\
    Forall (fun e => ContainsByte e "&" = false) pairs /\
    QueryEscape k +:+ "=" +:+ QueryEscape x ∈ pairs.
Proof.
  intros Hk Hx. unfold Encode. eexists. split; [reflexivity|]. split.
  - apply Forall_forall. intros e He. apply list_elem_of_In, in_concat in He as (l' & Hl' & He).
    apply in_map_iff in Hl' as (k' & <- & _). apply in_map_iff in He as (x' & <- & _).
    apply pair_no_amp.
  - apply list_elem_of_In, in_concat.
    exists (map (fun x => QueryEscape k +:+ "=" +:+ QueryEscape x) (default [] (v !! k))).
    split.
    + apply (in_map (fun k => map (fun x => QueryEscape k +:+ "=" +:+ QueryEscape x)
                                 (default [] (v !! k)))).
      apply list_elem_of_In, keys_of_map. by exists xs.
    + rewrite Hk. cbn [default].
      apply (in_map (fun x => QueryEscape k +:+ "=" +:+ QueryEscape x)).
      by apply list_elem_of_In.
Qed.

Lemma fold_Add_elem (l : Qualifiers) (m : Values) (k x : string) :
  (exists xs, m !! k = Some xs /\ x ∈ xs) \/ mkQualifier k x ∈ l ->
  exists xs, fold_left (fun v qq => Values_Add v (Key qq) (Value qq)) l m !! k = Some xs /\
    x ∈ xs.
Proof.
  revert m. induction l as [|q l IH]; intros m H; cbn [fold_left].
  { destruct H as [H|H]; [exact H|by apply elem_of_nil in H]. }
  apply IH. unfold Values_Add.
  destruct H as [(xs & Hm & Hx)|H].
  - left. destruct (decide (Key q = k)) as [<-|Hne].
    + rewrite lookup_insert_eq, Hm. eexists. split; [reflexivity|].
      cbn [default]. apply elem_of_app. by left.
    + rewrite lookup_insert_ne by done. eauto.
  - apply elem_of_cons in H as [<-|H]; [|by right].
    left. cbn [Key Value]. rewrite lookup_insert_eq. eexists. split; [reflexivity|].
    apply elem_of_app. right. by apply list_elem_of_singleton.
Qed.

Lemma ToString_query (p : PackageURL) :
  Encode (Purl.Qualifiers p) <> "" ->
  exists pre post, ToString p = pre +:+ "?" +:+ Encode (Purl.Qualifiers p) +:+ post /\
    (post = "" \/ exists t, post = String "#" t).
Proof.
  intros He. unfold ToString. cbv zeta.
  match goal with |- context [URLString ?u] =>
    assert (Hq : RawQuery u = Encode (Purl.Qualifiers p))
      by (cbn [RawQuery]; apply JoinPath_query_fragment);
    pose proof (URLString_query_at u) as Hu; rewrite Hq in Hu end.
  exact (Hu He).
Qed.

(** C3 (amended): the serializers keep an empty-valued qualifier; the
    specification's normalize drops it.  For every record of packageurl.go
    whose values for a key [k] include "", [ToString] gives some text, '?',
    the query and then nothing or a '#' fragment, and the query joins with
    '&' a list of pairs, none containing '&', among which is the escaped
    [k] followed by "=".  [Qualifiers.urlQuery] renders every pair [{k, ""}]
    of a slice the same way.  [SpecNormalize.Normalize] returns only
    qualifiers with a non-empty value, and none with the lower-cased key of
    an input qualifier whose value is empty. *)
Theorem C3_empty_value_kept (p : PackageURL) (k : string) (xs : list string)
    (l : Qualifiers) (sp sp' : Slice.PackageURL) :
  (Purl.Qualifiers p !! k = Some xs -> "" ∈ xs ->
     exists pre pairs post,
       ToString p = pre +:+ "?" +:+ Join pairs "&" +:+ post /\
       (post = "" \/ exists t, post = String "#" t) /\
       Forall (fun e => ContainsByte e "&" = false) pairs /\
       QueryEscape k +:+ "=" ∈ pairs) /\
  (mkQualifier k "" ∈ l ->
     exists pairs, urlQuery l = Join pairs "&" /\
       Forall (fun e => ContainsByte e "&" = false) pairs /\
       QueryEscape k +:+ "=" ∈ pairs) /\
  (SpecNormalize.Normalize sp = Ok sp' ->
     (forall q, q ∈ Slice.Qualifiers sp' -> Value q <> "") /\
     (mkQualifier k "" ∈ Slice.Qualifiers sp ->
        forall q, q ∈ Slice.Qualifiers sp' -> Key q <> ToLower k)).
Proof.
  split; [|split].
  - intros Hk Hx. destruct (Encode_has_pair _ k "" xs Hk Hx) as (pairs & He & Hf & Hin).
    rewrite QueryEscape_empty, append_nil_r in Hin.
    destruct (ToString_query p) as (pre & post & Ht & Hpost).
    { rewrite He. apply (Join_amp_nonempty _ _ Hin). apply append_nonempty_r. discriminate. }
    exists pre, pairs, post. rewrite <- He. done.
  - intros Hl. unfold urlQuery.
    destruct (fold_Add_elem l ∅ k "" (or_intror Hl)) as (xs' & Hk & Hx).
    destruct (Encode_has_pair _ k "" xs' Hk Hx) as (pairs & He & Hf & Hin).
    rewrite QueryEscape_empty, append_nil_r in Hin. eauto.
  - intros H. apply (Normalize_drops_empty _ _ k H).
Qed.

Lemma C3_empty_value_kept_witness :
  (exists pre pairs post,
     ToString (mkPURL "npm" "" "pkg" "" {["a" := ["1"]; "k" := [""]]} "sub") =
       pre +:+ "?" +:+ Join pairs "&" +:+ post /\
     (post = "" \/ exists t, post = String "#" t) /\
     Forall (fun e => ContainsByte e "&" = false) pairs /\
     QueryEscape "k" +:+ "=" ∈ pairs) /\
  (exists pairs, urlQuery [mkQualifier "a" "1"; mkQualifier "k" ""] = Join pairs "&" /\
     Forall (fun e => ContainsByte e "&" = false) pairs /\
     QueryEscape "k" +:+ "=" ∈ pairs) /\
  ((forall q, q ∈ Slice.Qualifiers (Slice.mkPURL "npm" "" "pkg" "" [mkQualifier "a" "1"] "") ->
      Value q <> "") /\
   (forall q, q ∈ Slice.Qualifiers (Slice.mkPURL "npm" "" "pkg" "" [mkQualifier "a" "1"] "") ->
      Key q <> ToLower "k")).
Proof.
  destruct (C3_empty_value_kept (mkPURL "npm" "" "pkg" "" {["a" := ["1"]; "k" := [""]]} "sub")
              "k" [""] [mkQualifier "a" "1"; mkQualifier "k" ""]
              (Slice.mkPURL "npm" "" "pkg" "" [mkQualifier "a" "1"; mkQualifier "k" ""] "")
              (Slice.mkPURL "npm" "" "pkg" "" [mkQualifier "a" "1"] ""))
    as (H1 & H2 & H3).
  split; [apply H1; [reflexivity|apply list_elem_of_In; simpl; auto]|].
  split; [apply H2; apply list_elem_of_In; simpl; auto|].
  destruct H3 as [H3 H4]; [vm_compute; reflexivity|].
  split; [exact H3|]. apply H4. apply list_elem_of_In. simpl. auto.
Defined.

(** C7 (amended): the code reports no repeated qualifier key; the
    specification's normalize does.  The slice-based [parseQualifiers] keeps
    every pair: two '&'-joined queries that parse give the concatenation of
    their qualifiers, whatever keys they share (packageurl.go's [FromString]
    keeps both values of "a=1&a=2", as the counterexample shows).
    [SpecNormalize.Normalize], for a record with a non-empty type whose
    qualifier keys are all valid, fails with [DuplicateQualifierKey] as soon
    as two keys coincide after lower-casing. *)
Theorem C7_duplicate_key (q1 q2 : string) (l1 l2 : Qualifiers) (sp : Slice.PackageURL) :
  (parseQualifiers q1 = Ret (Ok l1) -> parseQualifiers q2 = Ret (Ok l2) ->
   parseQualifiers (q1 +:+ String "&" q2) = Ret (Ok (l1 ++ l2)%list)) /\
  (ToLower (Slice.Type_ sp) <> "" ->
   Forall (fun q => validQualifierKey (Key q) = true) (Slice.Qualifiers sp) ->
   ~ NoDup (map (fun q => ToLower (Key q)) (Slice.Qualifiers sp)) ->
   exists k, SpecNormalize.Normalize sp = Err (DuplicateQualifierKey k)).
Proof. split; [apply parseQualifiers_concat|apply Normalize_duplicate]. Qed.

Lemma C7_duplicate_key_witness :
  parseQualifiers ("a=1" +:+ String "&" "a=2") =
    Ret (Ok ([mkQualifier "a" "1"] ++ [mkQualifier "a" "2"])%list) /\
  exists k, SpecNormalize.Normalize
              (Slice.mkPURL "npm" "" "pkg" "" [mkQualifier "k1" "v1"; mkQualifier "K1" "v2"] "") =
            Err (DuplicateQualifierKey k).
Proof.
  destruct (C7_duplicate_key "a=1" "a=2" [mkQualifier "a" "1"] [mkQualifier "a" "2"]
              (Slice.mkPURL "npm" "" "pkg" "" [mkQualifier "k1" "v1"; mkQualifier "K1" "v2"] ""))
    as [H1 H2].
  split; [apply H1; vm_compute; reflexivity|].
  apply H2.
  - vm_compute. discriminate.
  - repeat constructor.
  - vm_compute. intros Hnd. apply NoDup_cons in Hnd as [Hn _]. apply Hn. left.
Defined.


